(** * w2r: a vocabulary tracker over a single SQLite table

    Shallow embedding of [main.go] (the current program, built on the
    statements of [query.sql]) and of the earlier stand-alone [main.go]
    (module [Legacy]), followed by the properties of the word filter, the
    upsert, the delete, the two renderers and the [/word/] handler. *)

From Stdlib Require Import String Ascii List ZArith NArith Lia Bool Relations.
Import ListNotations.
Open Scope string_scope.
Open Scope list_scope.

Set Implicit Arguments.

(* ================================================================== *)
(** ** Go strings

    A Go [string] is a sequence of bytes; it is modelled by [string], whose
    characters are the bytes.  Package [strings] treats ASCII on a fast path
    and falls back to rune-by-rune code when it meets a byte [>= 0x80]
    ([utf8.RuneSelf]).  The fast paths are written out below; the fall-backs
    depend on the Unicode tables of the Go distribution and are taken as
    parameters. *)

Module strings.

(** [c >= utf8.RuneSelf] *)
Definition RuneSelf (c : ascii) : bool := (128 <=? N_of_ascii c)%N.

(** The table [asciiSpace]: tab, line feed, vertical tab, form feed,
    carriage return and space. *)
Definition asciiSpace (c : ascii) : bool :=
  let n := N_of_ascii c in
  ((9 <=? n) && (n <=? 13) || (n =? 32))%N.

Definition isUpper (c : ascii) : bool := (("A" <=? c) && (c <=? "Z"))%char.

(** [if 'A' <= c && c <= 'Z' { c += 'a' - 'A' }] *)
Definition lowerByte (c : ascii) : ascii :=
  if isUpper c then ascii_of_N (N_of_ascii c + 32) else c.

(** The rune-aware fall-backs of [TrimSpace] and [ToLower]. *)
Class UnicodeSlowPaths : Type := {
  (** [strings.TrimFunc(s, unicode.IsSpace)] *)
  TrimFunc_IsSpace : string -> string;
  (** [strings.TrimRightFunc(s, unicode.IsSpace)] *)
  TrimRightFunc_IsSpace : string -> string;
  (** [strings.Map(unicode.ToLower, s)] *)
  Map_ToLower : string -> string
}.

(** [strings.Split(s, sep)] for a one-byte separator: every occurrence of
    the separator ends a piece, so the result has one more piece than [s]
    has separators and is never empty. *)
Fixpoint Split (s : string) (sep : ascii) : list string :=
  match s with
  | EmptyString => [EmptyString]
  | String c s' =>
      if Ascii.eqb c sep then EmptyString :: Split s' sep
      else match Split s' sep with
           | p :: ps => String c p :: ps
           | [] => [String c EmptyString]
           end
  end.

Definition rev (s : string) : string :=
  string_of_list_ascii (List.rev (list_ascii_of_string s)).

(** [strings.TrimPrefix]: [s] without the leading [prefix], or [s] itself. *)
Fixpoint TrimPrefix (s prefix : string) : string :=
  match prefix with
  | EmptyString => s
  | String p prefix' =>
      match s with
      | String c s' =>
          if Ascii.eqb c p && String.prefix prefix' s' then TrimPrefix s' prefix'
          else s
      | EmptyString => s
      end
  end.

(** [strings.TrimSuffix]: [s] without the trailing [suffix], or [s] itself. *)
Definition TrimSuffix (s suffix : string) : string :=
  if String.prefix (rev suffix) (rev s)
  then rev (TrimPrefix (rev s) (rev suffix))
  else s.

(** [strings.Contains(s, substr)] *)
Fixpoint Contains (s substr : string) : bool :=
  String.prefix substr s ||
  match s with
  | EmptyString => false
  | String _ s' => Contains s' substr
  end.

Section WithUnicode.
Context {U : UnicodeSlowPaths}.

(** Second loop of [TrimSpace], on [s[start:]] read from its end:
    [r] is the reversed remainder. *)
Fixpoint trimRight (r : string) : string :=
  match r with
  | EmptyString => EmptyString
  | String c r' =>
      if RuneSelf c then TrimRightFunc_IsSpace (rev r)
      else if asciiSpace c then trimRight r'
      else rev r
  end.

(** [strings.TrimSpace]: the first loop drops leading ASCII space, the
    second trailing ASCII space; a byte [>= 0x80] met by either hands
    the rest to the rune-aware code. *)
Fixpoint TrimSpace (s : string) : string :=
  match s with
  | EmptyString => EmptyString
  | String c s' =>
      if RuneSelf c then TrimFunc_IsSpace s
      else if asciiSpace c then TrimSpace s'
      else trimRight (rev s)
  end.

Fixpoint isASCII (s : string) : bool :=
  match s with
  | EmptyString => true
  | String c s' => negb (RuneSelf c) && isASCII s'
  end.

Fixpoint lowerASCII (s : string) : string :=
  match s with
  | EmptyString => EmptyString
  | String c s' => String (lowerByte c) (lowerASCII s')
  end.

(** [strings.ToLower]: byte-wise on an all-ASCII string. *)
Definition ToLower (s : string) : string :=
  if isASCII s then lowerASCII s else Map_ToLower s.

End WithUnicode.

End strings.

(* ================================================================== *)
(** ** Regular expressions

    The fragment of [regexp] syntax the program uses, with a backtracking
    matcher in continuation-passing style.  [bot] says whether the current
    position is the beginning of the text.  The class [[a-z]] only holds
    ASCII bytes, so matching byte by byte agrees with matching rune by
    rune: a byte of a longer rune is never in the class. *)

Module regexp.

Inductive regex : Type :=
| BeginText                       (* ^ *)
| EndText                         (* $ *)
| CharRange (lo hi : ascii)       (* [lo-hi] *)
| Plus (r : regex)                (* r+ *)
| Concat (r1 r2 : regex).

Fixpoint rmatch (fuel : nat) (r : regex) (bot : bool) (s : string)
         (k : bool -> string -> bool) : bool :=
  match fuel with
  | O => false
  | S fuel =>
      match r with
      | BeginText => bot && k bot s
      | EndText => match s with EmptyString => k bot s | _ => false end
      | CharRange lo hi =>
          match s with
          | String c s' => (lo <=? c)%char && (c <=? hi)%char && k false s'
          | EmptyString => false
          end
      | Plus r1 =>
          rmatch fuel r1 bot s
                 (fun b s' => k b s' || rmatch fuel (Plus r1) b s' k)
      | Concat r1 r2 =>
          rmatch fuel r1 bot s (fun b s' => rmatch fuel r2 b s' k)
      end
  end.

(** An unanchored search: the expression may match from any position. *)
Fixpoint search (fuel : nat) (r : regex) (bot : bool) (s : string) : bool :=
  rmatch fuel r bot s (fun _ _ => true) ||
  match s with
  | EmptyString => false
  | String _ s' => search fuel r false s'
  end.

(** [regexp.MatchString] on a parsed pattern.  The matcher needs at most
    one step per byte and per operator of the patterns used here. *)
Definition MatchString (r : regex) (s : string) : bool :=
  search (8 + String.length s) r true s.

End regexp.

(** The pattern ["^[a-z]+$"]. *)
Definition pattern_word : regexp.regex :=
  regexp.Concat regexp.BeginText
    (regexp.Concat (regexp.Plus (regexp.CharRange "a" "z")) regexp.EndText).

Definition isValidWord (s : string) : bool :=
  regexp.MatchString pattern_word s.

Section WordFilter.
Context {U : strings.UnicodeSlowPaths}.

(** One turn of the loop of [filterWords]. *)
Definition filterWords_step (results : list string) (word : string) : list string :=
  let word := strings.TrimSpace word in
  let word := strings.ToLower word in
  if isValidWord word then results ++ [word] else results.

Definition filterWords (s : string) : list string :=
  let words := strings.Split s "," in
  fold_left filterWords_step words [].

End WordFilter.

(** The fall-backs left as they are: enough for ASCII text, which never
    reaches them. *)
#[export] Instance AsciiOnly : strings.UnicodeSlowPaths := {|
  strings.TrimFunc_IsSpace := fun s => s;
  strings.TrimRightFunc_IsSpace := fun s => s;
  strings.Map_ToLower := fun s => s
|}.

(* ================================================================== *)
(** ** The store

    The file [~/.word.sqlite] holds at most one table, [word], created by
    [Init]:
<<
    CREATE TABLE word (word TEXT PRIMARY KEY, zh_trans TEXT,
                       added_count INTEGER, lookup_count INTEGER);
>>
    Rows are kept in the order of their row ids, which is the order in
    which [SELECT *] lists them; a new row gets the largest row id. *)

Module sqlite.

Definition MaxInt64 : Z := 9223372036854775807.

(** What a cell of an [INTEGER] column of this table can hold: [NULL], a
    64-bit signed integer, or the floating-point number [2^63], which is
    what [added_count+1] yields when the integer addition overflows. *)
Inductive integer : Type :=
| Null
| Int (n : Z)
| Real2p63.

Record row : Type := Row {
  word : string;
  zh_trans : option string;       (* [None] is NULL *)
  added_count : integer;
  lookup_count : integer
}.

Inductive database : Type :=
| NoTable                         (* the table has not been created *)
| Table (rows : list row).

Inductive error : Type :=
| ErrNoSuchTable
| ErrTableExists
| ErrUnique                       (* UNIQUE constraint failed: word.word *)
| ErrScan                         (* a column does not convert to its Go type *)
| ErrIO.                          (* the file cannot be opened, read or written *)

(** [x + 1] on a cell.  [NULL + 1] is [NULL]; an integer overflow makes
    the result the floating-point [2^63], and adding [1.0] to that rounds
    back to [2^63]. *)
Definition add1 (x : integer) : integer :=
  match x with
  | Null => Null
  | Int n => if (n <? MaxInt64)%Z then Int (n + 1) else Real2p63
  | Real2p63 => Real2p63
  end.

Definition has_word (w : string) (r : row) : bool := String.eqb (word r) w.

(** [CREATE TABLE word (...)] *)
Definition create_table (d : database) : error + database :=
  match d with
  | NoTable => inr (Table [])
  | Table _ => inl ErrTableExists
  end.

(** [SELECT COUNT( * ) FROM word WHERE word = ?] *)
Definition count_word (w : string) (d : database) : error + Z :=
  match d with
  | NoTable => inl ErrNoSuchTable
  | Table rows => inr (Z.of_nat (List.length (filter (has_word w) rows)))
  end.

(** [INSERT INTO word (word, zh_trans, added_count, lookup_count)
    VALUES (...)] with the four values of [r]. *)
Definition insert (r : row) (d : database) : error + database :=
  match d with
  | NoTable => inl ErrNoSuchTable
  | Table rows =>
      if existsb (has_word (word r)) rows then inl ErrUnique
      else inr (Table (rows ++ [r]))
  end.

Definition bump (w : string) (r : row) : row :=
  if has_word w r
  then Row (word r) (zh_trans r) (add1 (added_count r)) (lookup_count r)
  else r.

(** [UPDATE word SET added_count = added_count+1 WHERE word = ?] *)
Definition update_added_count (w : string) (d : database) : error + database :=
  match d with
  | NoTable => inl ErrNoSuchTable
  | Table rows => inr (Table (map (bump w) rows))
  end.

(** [DELETE FROM word WHERE word = ?] *)
Definition delete (w : string) (d : database) : error + database :=
  match d with
  | NoTable => inl ErrNoSuchTable
  | Table rows => inr (Table (filter (fun r => negb (has_word w r)) rows))
  end.

(** [SELECT * FROM word] *)
Definition select_all (d : database) : error + list row :=
  match d with
  | NoTable => inl ErrNoSuchTable
  | Table rows => inr rows
  end.

End sqlite.

(** [database/sql]: nullable column values as Go sees them.  The zero
    value of either type is the invalid (NULL) one. *)
Module sql.

Record NullString : Type := mkNullString { Str : string; ValidString : bool }.
Record NullInt64 : Type := mkNullInt64 { Int64 : Z; Valid : bool }.

Definition NullString_zero : NullString := mkNullString "" false.

(** [Scan] of a [TEXT] cell into a [NullString]. *)
Definition scan_NullString (c : option string) : NullString :=
  match c with
  | Some s => mkNullString s true
  | None => mkNullString "" false
  end.

(** The cell a [NullString] parameter is bound to. *)
Definition bind_NullString (s : NullString) : option string :=
  if ValidString s then Some (Str s) else None.

(** [Scan] of an [INTEGER] cell into a [NullInt64]: a floating-point
    value that is no 64-bit integer does not convert. *)
Definition scan_NullInt64 (c : sqlite.integer) : option NullInt64 :=
  match c with
  | sqlite.Null => Some (mkNullInt64 0 false)
  | sqlite.Int n => Some (mkNullInt64 n true)
  | sqlite.Real2p63 => None
  end.

End sql.

(* ================================================================== *)
(** ** Processes

    A run of the program is a function of the world: the store, the
    faults the store will suffer (one entry per statement sent to it,
    [true] for a statement that fails for a reason outside the table: the
    file cannot be opened, the disk is full, the database is locked), and
    everything the process has done so far, in order. *)

Inductive value : Type :=
| VString (s : string)
| VInt (n : Z)
| VError (e : sqlite.error).

Inductive query : Type :=
| QCreateTable
| QCountWord (word : string)
| QInsert (r : sqlite.row)
| QAddWordCount (word : string)
| QDeleteWord (word : string)
| QListword.

(** One row of the hypertext table: the link of the first cell, its text,
    and the three other cells. *)
Record TableRow : Type := mkTableRow {
  href : string;
  cell_word : value;
  cell_added : value;
  cell_lookup : value;
  cell_trans : value
}.

Inductive body : Type :=
| Text (s : string)
| HtmlTable (rows : list TableRow).

Inductive event : Type :=
| Stmt (q : query) (err : option sqlite.error)   (* a statement and how it ended *)
| Printf (format : string) (args : list value)   (* fmt.Printf, format as written in the source *)
| LogPrintf (format : string) (args : list value)
| LogFatal (args : list value)
| Usage                                          (* flag.Usage() *)
| HttpWrite (b : body)
| HttpError (msg : string) (code : Z)
| HttpRedirect (url : string) (code : Z).

Record World : Type := mkWorld {
  db : sqlite.database;
  faults : list bool;
  trace : list event
}.

(** A process either goes on with a value or has left through [os.Exit]. *)
Inductive Outcome (A : Type) : Type :=
| Return (a : A) (w : World)
| Exit (code : Z) (w : World).

Arguments Exit {A} code w.

Definition Proc (A : Type) : Type := World -> Outcome A.

Definition ret {A} (a : A) : Proc A := fun w => Return a w.

Definition bind {A B} (m : Proc A) (k : A -> Proc B) : Proc B :=
  fun w =>
    match m w with
    | Return a w' => k a w'
    | Exit code w' => Exit code w'
    end.

Declare Scope proc_scope.
Delimit Scope proc_scope with proc.
Notation "x <- m ;; k" := (bind m (fun x => k))
  (at level 61, m at next level, right associativity) : proc_scope.
Notation "' p <- m ;; k" := (bind m (fun x => let p := x in k))
  (at level 61, p pattern, m at next level, right associativity) : proc_scope.
Notation "m ;;; k" := (bind m (fun _ => k))
  (at level 61, right associativity) : proc_scope.
Open Scope proc_scope.

Definition world_of {A} (o : Outcome A) : World :=
  match o with
  | Return _ w => w
  | Exit _ w => w
  end.

Definition emit (e : event) : Proc unit :=
  fun w => Return tt (mkWorld (db w) (faults w) (trace w ++ [e])).

Definition fmt_Printf (format : string) (args : list value) : Proc unit :=
  emit (Printf format args).

Definition log_Printf (format : string) (args : list value) : Proc unit :=
  emit (LogPrintf format args).

(** [log.Fatal]: print, then [os.Exit(1)]. *)
Definition log_Fatal {A} (args : list value) : Proc A :=
  fun w => Exit 1 (mkWorld (db w) (faults w) (trace w ++ [LogFatal args])).

(** [if err != nil { log.Fatal(err) }] *)
Definition fatal_if (err : option sqlite.error) : Proc unit :=
  match err with
  | Some e => log_Fatal [VError e]
  | None => ret tt
  end.

(** A [for ... range] loop. *)
Fixpoint for_each {A} (xs : list A) (f : A -> Proc unit) : Proc unit :=
  match xs with
  | [] => ret tt
  | x :: xs' => f x ;;; for_each xs' f
  end.

(** A statement that reads the store. *)
Definition db_query {A} (q : query) (run : sqlite.database -> sqlite.error + A)
  : Proc (sqlite.error + A) :=
  fun w =>
    let r := match faults w with
             | true :: _ => inl sqlite.ErrIO
             | _ => run (db w)
             end in
    let err := match r with inl e => Some e | inr _ => None end in
    Return r (mkWorld (db w) (tl (faults w)) (trace w ++ [Stmt q err])).

(** A statement that writes the store; a failed statement changes nothing. *)
Definition db_exec (q : query) (run : sqlite.database -> sqlite.error + sqlite.database)
  : Proc (option sqlite.error) :=
  fun w =>
    let r := match faults w with
             | true :: _ => inl sqlite.ErrIO
             | _ => run (db w)
             end in
    match r with
    | inl e => Return (Some e) (mkWorld (db w) (tl (faults w)) (trace w ++ [Stmt q (Some e)]))
    | inr d => Return None (mkWorld d (tl (faults w)) (trace w ++ [Stmt q None]))
    end.

(** What a Go function returning [(T, error)] hands back: the zero value
    of [T] beside a non-nil error. *)
Definition go_result {A} (zero : A) (r : sqlite.error + A) : A * option sqlite.error :=
  match r with
  | inl e => (zero, Some e)
  | inr a => (a, None)
  end.

(* ================================================================== *)
(** ** Package [worddb]: the statements of [query.sql]

    Each named statement of [query.sql] becomes a method of
    [worddb.Queries] that binds its parameters, runs it and scans the
    rows it returns into the struct [Word], whose columns are the four of
    the table. *)

Module worddb.

Module Word.
Record t : Type := mk {
  Word : string;
  ZhTrans : sql.NullString;
  AddedCount : sql.NullInt64;
  LookupCount : sql.NullInt64
}.
Definition zero : t :=
  mk "" sql.NullString_zero (sql.mkNullInt64 0 false) (sql.mkNullInt64 0 false).
End Word.

Module CreateWordParams.
Record t : Type := mk {
  Word : string;
  ZhTrans : sql.NullString
}.
End CreateWordParams.

(** [rows.Scan(&i.Word, &i.ZhTrans, &i.AddedCount, &i.LookupCount)] *)
Definition scan (r : sqlite.row) : option Word.t :=
  match sql.scan_NullInt64 (sqlite.added_count r),
        sql.scan_NullInt64 (sqlite.lookup_count r) with
  | Some a, Some l =>
      Some (Word.mk (sqlite.word r) (sql.scan_NullString (sqlite.zh_trans r)) a l)
  | _, _ => None
  end.

(** The loop over the rows of a [:many] statement: the first row that
    does not scan ends it with an error. *)
Fixpoint scan_all (rows : list sqlite.row) : sqlite.error + list Word.t :=
  match rows with
  | [] => inr []
  | r :: rows' =>
      match scan r with
      | None => inl sqlite.ErrScan
      | Some i =>
          match scan_all rows' with
          | inl e => inl e
          | inr items => inr (i :: items)
          end
      end
  end.

(** [-- name: Listword :many]  [SELECT * FROM word;] *)
Definition Listword : Proc (list Word.t * option sqlite.error) :=
  r <- db_query QListword
         (fun d => match sqlite.select_all d with
                   | inl e => inl e
                   | inr rows => scan_all rows
                   end) ;;
  ret (go_result [] r).

(** The row [CreateWord] inserts: [VALUES (?, ?, 0, 0)]. *)
Definition new_row (arg : CreateWordParams.t) : sqlite.row :=
  sqlite.Row (CreateWordParams.Word arg)
             (sql.bind_NullString (CreateWordParams.ZhTrans arg))
             (sqlite.Int 0) (sqlite.Int 0).

(** [-- name: CreateWord :one]  [INSERT ... VALUES (?, ?, 0, 0) RETURNING *;] *)
Definition CreateWord (arg : CreateWordParams.t) : Proc (Word.t * option sqlite.error) :=
  err <- db_exec (QInsert (new_row arg)) (sqlite.insert (new_row arg)) ;;
  ret match err with
      | Some e => (Word.zero, Some e)
      | None =>
          match scan (new_row arg) with
          | Some i => (i, None)
          | None => (Word.zero, Some sqlite.ErrScan)
          end
      end.

(** [-- name: CountWord :one]  [SELECT COUNT( * ) FROM word WHERE word = ?;] *)
Definition CountWord (word : string) : Proc (Z * option sqlite.error) :=
  r <- db_query (QCountWord word) (sqlite.count_word word) ;;
  ret (go_result 0%Z r).

(** [-- name: AddWordCount :exec]
    [UPDATE word set added_count=added_count+1 WHERE word = ?;] *)
Definition AddWordCount (word : string) : Proc (option sqlite.error) :=
  db_exec (QAddWordCount word) (sqlite.update_added_count word).

(** [-- name: DeleteWord :exec]  [DELETE FROM word WHERE word = ?;] *)
Definition DeleteWord (word : string) : Proc (option sqlite.error) :=
  db_exec (QDeleteWord word) (sqlite.delete word).

End worddb.

(* ================================================================== *)
(** ** [main.go] *)

Definition Version : string := "0.1".

(** The statement of [Init], as one line. *)
Definition sqlStmt : string :=
  "CREATE TABLE word (word TEXT PRIMARY KEY, zh_trans TEXT, added_count INTEGER, lookup_count INTEGER);".

(** [func (w *WordDB) Init()] *)
Definition Init : Proc unit :=
  err <- db_exec QCreateTable sqlite.create_table ;;
  match err with
  | Some e => log_Printf "%q: %s\n" [VError e; VString sqlStmt]
  | None => log_Printf "init database" []
  end.

(** [func (w *WordDB) AddWord(word string)] *)
Definition AddWord (word : string) : Proc unit :=
  '(count, _) <- worddb.CountWord word ;;
  if (count =? 0)%Z then
    '(_, err) <- worddb.CreateWord
                   (worddb.CreateWordParams.mk word sql.NullString_zero) ;;
    fatal_if err ;;;
    log_Printf "add word '%s'" [VString word]
  else
    err <- worddb.AddWordCount word ;;
    fatal_if err ;;;
    log_Printf "word '%s' already in database, added_count++" [VString word].

(** The four values [ShowSummary] prints for a record. *)
Definition summary_args (word : worddb.Word.t) : list value :=
  let lookupCount := sql.Int64 (worddb.Word.LookupCount word) in
  let lookupCount :=
    if negb (sql.Valid (worddb.Word.LookupCount word)) then 0%Z else lookupCount in
  let zhTrans := "" in
  let zhTrans :=
    if sql.ValidString (worddb.Word.ZhTrans word)
    then sql.Str (worddb.Word.ZhTrans word) else zhTrans in
  [VString (worddb.Word.Word word);
   VInt (sql.Int64 (worddb.Word.AddedCount word));
   VInt lookupCount;
   VString zhTrans].

(** [func (w *WordDB) ShowSummary()] *)
Definition ShowSummary : Proc unit :=
  '(words, _) <- worddb.Listword ;;
  fmt_Printf "%15s %10s %12s %-12s\n"
    [VString "Word"; VString "Added Count"; VString "Lookup Count";
     VString "Translation"] ;;;
  for_each words
    (fun word => fmt_Printf "%15s %10d %12d %-12s\n" (summary_args word)).

(** [func (w *WordDB) DelWord(word string)] *)
Definition DelWord (word : string) : Proc unit :=
  err <- worddb.DeleteWord word ;;
  fatal_if err ;;;
  log_Printf "del word '%s'" [VString word].

(** A parsed template: what [Execute] writes for the data it is given,
    and the error it ends with, if any. *)
Definition Template : Type := list worddb.Word.t -> body * option string.

(** What the process is started in, besides the store: the embedded file
    [words.html] as [template.ParseFS] reads it (or the error it gives),
    the paths of the requests served before [http.ListenAndServe]
    returns, in the order they are handled, and the error it returns
    with. *)
Record Env : Type := mkEnv {
  words_html : string + Template;
  requests : list string;
  listen_error : string
}.

(** The handler registered for ["/"]. *)
Definition rootHandler (tmpl : Template) : Proc unit :=
  '(words, _) <- worddb.Listword ;;
  let '(out, err) := tmpl words in
  emit (HttpWrite out) ;;;
  match err with
  | Some msg => emit (HttpError msg 500)
  | None => ret tt
  end.

Definition dictionary : string :=
  "https://dictionary.cambridge.org/dictionary/english-chinese-simplified/".

(** The handler registered for ["/word/"], on the path of the request. *)
Definition wordHandler (path : string) : Proc unit :=
  let word := strings.TrimPrefix path "/word/" in
  let word := strings.TrimSuffix word "/" in
  if String.eqb word "" then emit (HttpError "word not found" 404)
  else emit (HttpRedirect (dictionary ++ word) 301).

(** [http.DefaultServeMux] with the two patterns registered: a path under
    ["/word/"] goes to its handler, ["/word"] is redirected to the
    subtree, every other path goes to ["/"]. *)
Definition ServeMux (root : Proc unit) (word : string -> Proc unit)
           (path : string) : Proc unit :=
  if String.prefix "/word/" path then word path
  else if String.eqb path "/word" then emit (HttpRedirect "/word/" 301)
  else root.

(** [func (w *WordDB) RunWebServer(port int)] *)
Definition RunWebServer (env : Env) (port : Z) : Proc unit :=
  match words_html env with
  | inl err => log_Fatal [VString err]
  | inr tmpl =>
      log_Printf "Start web server at http://127.0.0.1:%d" [VInt port] ;;;
      for_each (requests env) (ServeMux (rootHandler tmpl) wordHandler) ;;;
      log_Fatal [VString (listen_error env)]
  end.

(** The flags after [flag.Parse()], and [flag.NFlag()]. *)
Module Flags.
Record t : Type := mk {
  init : bool;
  add : string;
  show : bool;
  del : string;
  daemon : bool;
  port : Z;
  showVersion : bool;
  NFlag : nat
}.
End Flags.

Section Main.
Context {U : strings.UnicodeSlowPaths}.

(** [func main()].  The handle [getDb] opens is the store of the world. *)
Definition main (env : Env) (f : Flags.t) : Proc unit :=
  if Nat.eqb (Flags.NFlag f) 0 then emit Usage
  else if Flags.showVersion f then
    fmt_Printf "word version: %s\n" [VString Version]
  else if Flags.daemon f then
    (if (Flags.port f <=? 0)%Z || (65535 <? Flags.port f)%Z
     then log_Fatal [VString "port must be between 0~65535"]
     else ret tt) ;;;
    RunWebServer env (Flags.port f)
  else if Flags.init f then Init
  else if negb (String.eqb (Flags.add f) "") then
    let words := filterWords (Flags.add f) in
    for_each words AddWord
  else if negb (String.eqb (Flags.del f) "") then DelWord (Flags.del f)
  else if Flags.show f then ShowSummary
  else ret tt.

End Main.

(* ================================================================== *)
(** ** The earlier [main.go]

    The same program before it was moved onto [worddb]: the statements
    are written in the functions, a record is the struct [Word] with plain
    fields, and the page of the web server is a template in the source. *)

Module Legacy.

Module Word.
Record t : Type := mk {
  Word : string;
  ZhTrans : string;
  AddedCount : Z;
  LookupCount : Z
}.
End Word.

(** [rows.Scan(&word.Word, &word.ZhTrans, &word.AddedCount,
    &word.LookupCount)]: NULL converts neither to [string] nor to
    [int]. *)
Definition scan (r : sqlite.row) : option Word.t :=
  match sqlite.zh_trans r, sqlite.added_count r, sqlite.lookup_count r with
  | Some zh, sqlite.Int a, sqlite.Int l => Some (Word.mk (sqlite.word r) zh a l)
  | _, _, _ => None
  end.

(** [func (w *WordDB) AddWord(word string)] *)
Definition AddWord (word : string) : Proc unit :=
  r <- db_query (QCountWord word) (sqlite.count_word word) ;;
  let '(count, err) := go_result 0%Z r in
  fatal_if err ;;;
  if (count =? 0)%Z then
    let r := sqlite.Row word (Some "") (sqlite.Int 0) (sqlite.Int 0) in
    err <- db_exec (QInsert r) (sqlite.insert r) ;;
    fatal_if err ;;;
    log_Printf "add word '%s'" [VString word]
  else
    err <- db_exec (QAddWordCount word) (sqlite.update_added_count word) ;;
    fatal_if err ;;;
    log_Printf "word '%s' already in database, added_count++" [VString word].

(** The loop [for rows.Next()] of [GetAllWords]. *)
Fixpoint scan_rows (rows : list sqlite.row) (words : list Word.t)
  : Proc (list Word.t) :=
  match rows with
  | [] => ret words
  | r :: rows' =>
      match scan r with
      | None =>
          log_Printf "get row error: %v" [VError sqlite.ErrScan] ;;;
          scan_rows rows' words
      | Some word => scan_rows rows' (words ++ [word])
      end
  end.

(** [func (w *WordDB) GetAllWords() []Word] *)
Definition GetAllWords : Proc (list Word.t) :=
  r <- db_query QListword sqlite.select_all ;;
  match r with
  | inl err =>
      log_Printf "get all words error: %v" [VError err] ;;;
      ret []
  | inr rows => scan_rows rows []
  end.

Definition summary_args (word : Word.t) : list value :=
  [VString (Word.Word word); VInt (Word.AddedCount word);
   VInt (Word.LookupCount word); VString (Word.ZhTrans word)].

(** [func (w *WordDB) ShowSummary()] *)
Definition ShowSummary : Proc unit :=
  words <- GetAllWords ;;
  fmt_Printf "%15s %10s %12s %-12s\n"
    [VString "Word"; VString "Added Count"; VString "Lookup Count";
     VString "Translation"] ;;;
  for_each words
    (fun word => fmt_Printf "%15s %10d %12d %-12s\n" (summary_args word)).

(** [func (w *WordDB) DelWord(word string)] *)
Definition DelWord (word : string) : Proc unit :=
  err <- db_exec (QDeleteWord word) (sqlite.delete word) ;;
  fatal_if err ;;;
  log_Printf "del word '%s'" [VString word].

(** The template of the page: inside [{{range .}}], a row whose first
    cell links [/word/{{.Word}}] with the text [{{.Word}}] and whose
    other cells are [{{.AddedCount}}], [{{.LookupCount}}] and
    [{{.ZhTrans}}]. *)
Definition page_row (word : Word.t) : TableRow :=
  mkTableRow ("/word/" ++ Word.Word word)
             (VString (Word.Word word))
             (VInt (Word.AddedCount word))
             (VInt (Word.LookupCount word))
             (VString (Word.ZhTrans word)).

Definition page (words : list Word.t) : body * option string :=
  (HtmlTable (map page_row words), None).

(** The handler registered for ["/"]. *)
Definition rootHandler : Proc unit :=
  words <- GetAllWords ;;
  let '(out, err) := page words in
  emit (HttpWrite out) ;;;
  match err with
  | Some msg => emit (HttpError msg 500)
  | None => ret tt
  end.

(** [func (w *WordDB) RunWebServer()] *)
Definition RunWebServer (env : Env) : Proc unit :=
  for_each (requests env) (ServeMux rootHandler wordHandler) ;;;
  log_Fatal [VString (listen_error env)].

Section Main.
Context {U : strings.UnicodeSlowPaths}.

(** [func main()] *)
Definition main (env : Env) (f : Flags.t) : Proc unit :=
  if Nat.eqb (Flags.NFlag f) 0 then emit Usage
  else if Flags.showVersion f then
    fmt_Printf "word version: %s\n" [VString Version]
  else if Flags.daemon f then RunWebServer env
  else if Flags.init f then Init
  else if negb (String.eqb (Flags.add f) "") then
    let words := filterWords (Flags.add f) in
    for_each words AddWord
  else if negb (String.eqb (Flags.del f) "") then DelWord (Flags.del f)
  else if Flags.show f then ShowSummary
  else ret tt.

End Main.

End Legacy.

(** A process started on a store, with the faults to come and nothing
    done yet. *)
Definition start (d : sqlite.database) (fs : list bool) : World := mkWorld d fs [].

(* ================================================================== *)
(** * Properties *)

(** ** The word filter *)

Definition is_lower (c : ascii) : bool := (("a" <=? c) && (c <=? "z"))%char.

Fixpoint all_lower (s : string) : bool :=
  match s with
  | EmptyString => true
  | String c s' => is_lower c && all_lower s'
  end.

(** One or more lower-case Latin letters, and nothing else. *)
Definition LowerLatin (s : string) : Prop :=
  s <> "" /\ forall c, In c (list_ascii_of_string s) -> is_lower c = true.

Definition lower_latin (s : string) : bool :=
  match s with
  | EmptyString => false
  | String _ _ => all_lower s
  end.

Lemma lower_latin_spec (s : string) : lower_latin s = true <-> LowerLatin s.
Proof.
  assert (A : forall t, all_lower t = true <->
                        forall c, In c (list_ascii_of_string t) -> is_lower c = true).
  { induction t as [|c t IH]; simpl.
    - split; [intros _ c [] | reflexivity].
    - rewrite andb_true_iff, IH. split.
      + intros [Hc Ht] x [<-|Hx]; auto.
      + intros H. split; [apply H; now left | intros x Hx; apply H; now right]. }
  unfold LowerLatin. destruct s as [|c s].
  - simpl. split; [discriminate | intros [H _]; now contradiction H].
  - unfold lower_latin. rewrite A. split; [intros H; split; [discriminate | exact H] | tauto].
Qed.

Module regexp_facts.
Import regexp.

Definition at_end (s : string) : bool :=
  match s with EmptyString => true | String _ _ => false end.

(** [[a-z]+] followed by the end of the text, with fuel to spare. *)
Lemma plus_lower (s : string) :
  forall fuel bot k,
    String.length s + 2 <= fuel ->
    (forall b t, k b t = at_end t) ->
    rmatch fuel (Plus (CharRange "a" "z")) bot s k = lower_latin s.
Proof.
  induction s as [|c s IH]; intros fuel bot k Hfuel Hk.
  - destruct fuel as [|[|fuel]]; simpl in Hfuel; try lia. reflexivity.
  - destruct fuel as [|[|fuel]]; simpl in Hfuel; try lia.
    change (rmatch (S (S fuel)) (Plus (CharRange "a" "z")) bot (String c s) k)
      with (is_lower c
            && (k false s || rmatch (S fuel) (Plus (CharRange "a" "z")) false s k)).
    rewrite Hk, (IH (S fuel) false k) by (auto; lia).
    cbn [lower_latin all_lower]. destruct (is_lower c); [|reflexivity].
    destruct s; reflexivity.
Qed.

(** [^] does not match after the first byte. *)
Lemma search_not_bot (s : string) :
  forall fuel, search fuel pattern_word false s = false.
Proof.
  induction s as [|c s IH]; intros [|[|fuel]]; simpl; rewrite ?IH; reflexivity.
Qed.

Lemma MatchString_word (s : string) :
  MatchString pattern_word s = lower_latin s.
Proof.
  unfold MatchString.
  assert (H : rmatch (8 + String.length s) pattern_word true s (fun _ _ => true)
              = lower_latin s).
  { change (rmatch (8 + String.length s) pattern_word true s (fun _ _ => true))
      with (rmatch (6 + String.length s) (Plus (CharRange "a" "z")) true s
                   (fun b t => rmatch (6 + String.length s) EndText b t (fun _ _ => true))).
    apply plus_lower; [lia|]. intros b [|c t]; reflexivity. }
  destruct s as [|c s]; cbn [search]; rewrite H.
  - reflexivity.
  - rewrite search_not_bot. apply orb_false_r.
Qed.

End regexp_facts.

Lemma isValidWord_spec (s : string) : isValidWord s = true <-> LowerLatin s.
Proof.
  unfold isValidWord. rewrite regexp_facts.MatchString_word. apply lower_latin_spec.
Qed.

(** Joining the pieces of [Split] with the separator gives the text back. *)
Lemma Split_join (s : string) (sep : ascii) :
  String.concat (String sep "") (strings.Split s sep) = s.
Proof.
  induction s as [|c s IH]; [reflexivity|].
  simpl. destruct (Ascii.eqb_spec c sep) as [->|Hne].
  - destruct (strings.Split s sep) as [|p ps] eqn:E.
    + simpl in IH. subst s. discriminate E.
    + cbn [String.concat]. rewrite <- IH. reflexivity.
  - destruct (strings.Split s sep) as [|p ps] eqn:E.
    + simpl in IH. now subst s.
    + destruct ps; simpl in *; now subst s.
Qed.

Section WordFilterFacts.
Context {U : strings.UnicodeSlowPaths}.

(** What [filterWords] makes of one piece. *)
Definition normalize (piece : string) : string :=
  strings.ToLower (strings.TrimSpace piece).

Lemma filterWords_loop (words acc : list string) :
  fold_left filterWords_step words acc
  = acc ++ filter isValidWord (map normalize words).
Proof.
  revert acc. induction words as [|p ps IH]; intros acc; simpl.
  - now rewrite app_nil_r.
  - rewrite IH. unfold filterWords_step. fold (normalize p).
    destruct (isValidWord (normalize p)); [|reflexivity].
    now rewrite <- app_assoc.
Qed.

(** C1. [filterWords] splits its argument on [,], trims and lower-cases
    every piece, and keeps, in order and with repetitions, exactly the
    pieces that then match [^[a-z]+$], that is, that are one or more
    lower-case Latin letters; the result may be empty, and
    [filterWords("Cat, dog2, , ELEPHANT ")] is [["cat", "elephant"]]. *)
Theorem filterWords_spec (s : string) :
  filterWords s
  = filter isValidWord
      (map (fun piece => strings.ToLower (strings.TrimSpace piece))
           (strings.Split s ","))
  /\ String.concat "," (strings.Split s ",") = s
  /\ (forall w, isValidWord w = true <-> LowerLatin w)
  /\ Forall LowerLatin (filterWords s)
  /\ filterWords "Cat, dog2, , ELEPHANT " = ["cat"; "elephant"]
  /\ filterWords "a,b,a" = ["a"; "b"; "a"]
  /\ filterWords "2, ,b c" = [].
Proof.
  assert (E : filterWords s = filter isValidWord (map normalize (strings.Split s ","))).
  { unfold filterWords. now rewrite filterWords_loop. }
  split; [exact E|]. split; [apply Split_join|].
  split; [exact isValidWord_spec|]. split.
  - rewrite E. apply Forall_forall. intros w Hw.
    apply filter_In in Hw. now apply isValidWord_spec.
  - repeat split; reflexivity.
Qed.

End WordFilterFacts.

(* ================================================================== *)
(** ** The table *)

Definition new_record (word : string) : sqlite.row :=
  sqlite.Row word None (sqlite.Int 0) (sqlite.Int 0).

(** What one [AddWord] makes of the rows of the table. *)
Definition upsert (word : string) (rows : list sqlite.row) : list sqlite.row :=
  if existsb (sqlite.has_word word) rows
  then map (sqlite.bump word) rows
  else rows ++ [new_record word].

Definition remove (word : string) (rows : list sqlite.row) : list sqlite.row :=
  filter (fun r => negb (sqlite.has_word word r)) rows.

(** The rows of a store that belong to a word. *)
Definition records (word : string) (d : sqlite.database) : list sqlite.row :=
  match d with
  | sqlite.NoTable => []
  | sqlite.Table rows => filter (sqlite.has_word word) rows
  end.

Lemma has_word_true (w : string) (r : sqlite.row) :
  sqlite.has_word w r = true <-> sqlite.word r = w.
Proof. apply String.eqb_eq. Qed.

Lemma has_word_false (w : string) (r : sqlite.row) :
  sqlite.has_word w r = false <-> sqlite.word r <> w.
Proof. apply String.eqb_neq. Qed.

Lemma existsb_filter_nil {A} (f : A -> bool) (l : list A) :
  existsb f l = false <-> filter f l = [].
Proof.
  induction l as [|x l IH]; simpl; [tauto|].
  destruct (f x); simpl; [split; discriminate | exact IH].
Qed.

Lemma absent_existsb (w : string) (rows : list sqlite.row) :
  (forall r, In r rows -> sqlite.word r <> w) <->
  existsb (sqlite.has_word w) rows = false.
Proof.
  split.
  - intros H. destruct (existsb _ rows) eqn:E; [|reflexivity].
    apply existsb_exists in E as (r & Hr & Hw).
    apply has_word_true in Hw. now apply H in Hr.
  - intros E r Hr Hw. apply has_word_true in Hw.
    assert (existsb (sqlite.has_word w) rows = true) by (apply existsb_exists; eauto).
    congruence.
Qed.

Lemma count_zero (w : string) (rows : list sqlite.row) :
  (Z.of_nat (List.length (filter (sqlite.has_word w) rows)) =? 0)%Z
  = negb (existsb (sqlite.has_word w) rows).
Proof.
  destruct (existsb _ rows) eqn:E; simpl.
  - destruct (filter _ rows) eqn:F; [|reflexivity].
    apply existsb_filter_nil in F. congruence.
  - apply existsb_filter_nil in E. now rewrite E.
Qed.

Lemma remove_absent (w : string) (rows : list sqlite.row) :
  (forall r, In r rows -> sqlite.word r <> w) -> remove w rows = rows.
Proof.
  intros H. unfold remove. induction rows as [|r rows IH]; [reflexivity|].
  simpl. assert (E : sqlite.has_word w r = false)
    by (apply has_word_false, H; now left).
  rewrite E. simpl. f_equal. apply IH. intros; apply H; now right.
Qed.

Lemma remove_idempotent (w : string) (rows : list sqlite.row) :
  remove w (remove w rows) = remove w rows.
Proof.
  apply remove_absent. intros r Hr. apply filter_In in Hr as [_ Hr].
  apply has_word_false. now destruct (sqlite.has_word w r).
Qed.

Ltac run_proc :=
  unfold AddWord, DelWord, Init, ShowSummary, Legacy.AddWord, Legacy.DelWord,
    worddb.CountWord, worddb.CreateWord, worddb.AddWordCount,
    worddb.DeleteWord, worddb.Listword, fatal_if, log_Printf, fmt_Printf,
    log_Fatal, emit, bind, ret, db_query, db_exec, go_result, start;
  cbn [db faults trace tl sqlite.count_word sqlite.insert sqlite.delete
       sqlite.update_added_count sqlite.select_all sqlite.create_table
       fst snd].

(** [AddWord] on a table, when the store does not fail. *)
Lemma AddWord_run (word : string) (rows : list sqlite.row) (t : list event) :
  AddWord word (mkWorld (sqlite.Table rows) [] t)
  = Return tt
      (mkWorld (sqlite.Table (upsert word rows)) []
         (t ++ [Stmt (QCountWord word) None]
            ++ (if existsb (sqlite.has_word word) rows
                then [Stmt (QAddWordCount word) None;
                      LogPrintf "word '%s' already in database, added_count++"
                        [VString word]]
                else [Stmt (QInsert (new_record word)) None;
                      LogPrintf "add word '%s'" [VString word]]))).
Proof.
  run_proc. rewrite count_zero. unfold upsert.
  destruct (existsb (sqlite.has_word word) rows) eqn:E; cbn.
  - now rewrite <- !app_assoc.
  - unfold worddb.new_row. cbn. fold (new_record word). rewrite E. cbn.
    now rewrite <- !app_assoc.
Qed.

Lemma Legacy_AddWord_run (word : string) (rows : list sqlite.row) (t : list event) :
  Legacy.AddWord word (mkWorld (sqlite.Table rows) [] t)
  = Return tt
      (mkWorld
         (sqlite.Table
            (if existsb (sqlite.has_word word) rows
             then map (sqlite.bump word) rows
             else rows ++ [sqlite.Row word (Some "") (sqlite.Int 0) (sqlite.Int 0)]))
         []
         (t ++ [Stmt (QCountWord word) None]
            ++ (if existsb (sqlite.has_word word) rows
                then [Stmt (QAddWordCount word) None;
                      LogPrintf "word '%s' already in database, added_count++"
                        [VString word]]
                else [Stmt (QInsert (sqlite.Row word (Some "") (sqlite.Int 0) (sqlite.Int 0))) None;
                      LogPrintf "add word '%s'" [VString word]]))).
Proof.
  run_proc. rewrite count_zero.
  destruct (existsb (sqlite.has_word word) rows) eqn:E; cbn.
  - now rewrite <- !app_assoc.
  - rewrite E. cbn. now rewrite <- !app_assoc.
Qed.

Lemma DelWord_run (word : string) (rows : list sqlite.row) (t : list event) :
  DelWord word (mkWorld (sqlite.Table rows) [] t)
  = Return tt
      (mkWorld (sqlite.Table (remove word rows)) []
         (t ++ [Stmt (QDeleteWord word) None;
                LogPrintf "del word '%s'" [VString word]])).
Proof. run_proc. now rewrite <- !app_assoc. Qed.

(** C2. When the table holds no record for a word, [AddWord] appends one
    record for it and changes nothing else: the record has
    [added_count = 0] (not 1), [lookup_count = 0] and no translation (NULL,
    which the summary prints as the empty string; the earlier program
    stored the empty string). *)
Theorem AddWord_creates_record (word : string) (rows : list sqlite.row) :
  (forall r, In r rows -> sqlite.word r <> word) ->
  let created := sqlite.Row word None (sqlite.Int 0) (sqlite.Int 0) in
  (exists t,
      AddWord word (start (sqlite.Table rows) [])
      = Return tt (mkWorld (sqlite.Table (rows ++ [created])) [] t))
  /\ records word (sqlite.Table (rows ++ [created])) = [created]
  /\ option_map summary_args (worddb.scan created)
     = Some [VString word; VInt 0; VInt 0; VString ""]
  /\ (exists t,
         Legacy.AddWord word (start (sqlite.Table rows) [])
         = Return tt
             (mkWorld
                (sqlite.Table
                   (rows ++ [sqlite.Row word (Some "") (sqlite.Int 0) (sqlite.Int 0)]))
                [] t)).
Proof.
  intros H created. pose proof (proj1 (absent_existsb word rows) H) as E.
  split; [|split; [|split]].
  - eexists. unfold start. rewrite AddWord_run. unfold upsert. rewrite E. reflexivity.
  - cbn [records]. rewrite filter_app.
    apply existsb_filter_nil in E. rewrite E. cbn.
    unfold sqlite.has_word. cbn. now rewrite String.eqb_refl.
  - reflexivity.
  - eexists. unfold start. rewrite Legacy_AddWord_run. rewrite E. reflexivity.
Qed.

Lemma AddWord_creates_record_witness :
  (forall r, In r [sqlite.Row "dog" None (sqlite.Int 4) (sqlite.Int 0)] ->
             sqlite.word r <> "cat")
  /\ exists t,
      AddWord "cat" (start (sqlite.Table [sqlite.Row "dog" None (sqlite.Int 4) (sqlite.Int 0)]) [])
      = Return tt
          (mkWorld
             (sqlite.Table [sqlite.Row "dog" None (sqlite.Int 4) (sqlite.Int 0);
                            sqlite.Row "cat" None (sqlite.Int 0) (sqlite.Int 0)])
             [] t).
Proof.
  assert (H : forall r, In r [sqlite.Row "dog" None (sqlite.Int 4) (sqlite.Int 0)] ->
                        sqlite.word r <> "cat").
  { intros r [<-|[]]. discriminate. }
  split; [exact H|].
  exact (proj1 (@AddWord_creates_record "cat" _ H)).
Defined.

Lemma bump_other (word : string) (r : sqlite.row) :
  sqlite.word r <> word -> sqlite.bump word r = r.
Proof.
  intros H. unfold sqlite.bump.
  now rewrite (proj2 (has_word_false word r) H).
Qed.

Lemma bump_same (r : sqlite.row) :
  sqlite.bump (sqlite.word r) r
  = sqlite.Row (sqlite.word r) (sqlite.zh_trans r)
               (sqlite.add1 (sqlite.added_count r)) (sqlite.lookup_count r).
Proof.
  unfold sqlite.bump, sqlite.has_word. now rewrite String.eqb_refl.
Qed.

Lemma add1_Int (n : Z) :
  (n < sqlite.MaxInt64)%Z -> sqlite.add1 (sqlite.Int n) = sqlite.Int (n + 1).
Proof.
  intros H. unfold sqlite.add1.
  now rewrite (proj2 (Z.ltb_lt n sqlite.MaxInt64) H).
Qed.

(** C3. When the table holds a record for a word, with [added_count] an
    integer [n] that can still grow, [AddWord] makes it [n + 1], keeps the
    translation and [lookup_count] of that record, and leaves every
    record of another word, and the order of the records, as they were. *)
Theorem AddWord_increments_record
        (word : string) (rows : list sqlite.row) (r : sqlite.row) (n : Z) :
  In r rows ->
  sqlite.word r = word ->
  sqlite.added_count r = sqlite.Int n ->
  (n < sqlite.MaxInt64)%Z ->
  exists rows' t,
    AddWord word (start (sqlite.Table rows) [])
    = Return tt (mkWorld (sqlite.Table rows') [] t)
    /\ rows' = map (sqlite.bump word) rows
    /\ sqlite.bump word r
       = sqlite.Row word (sqlite.zh_trans r) (sqlite.Int (n + 1)) (sqlite.lookup_count r)
    /\ (forall r', sqlite.word r' <> word -> sqlite.bump word r' = r')
    /\ (forall i, nth_error rows' i = option_map (sqlite.bump word) (nth_error rows i))
    /\ List.length rows' = List.length rows.
Proof.
  intros Hin Hw Ha Hn.
  assert (E : existsb (sqlite.has_word word) rows = true).
  { apply existsb_exists. exists r. split; [exact Hin | now apply has_word_true]. }
  exists (map (sqlite.bump word) rows). eexists.
  split; [|split; [reflexivity|split; [|split; [|split]]]].
  - unfold start. rewrite AddWord_run. unfold upsert. rewrite E. reflexivity.
  - subst word. rewrite bump_same, Ha, add1_Int by exact Hn. reflexivity.
  - intros r'. apply bump_other.
  - intros i. apply nth_error_map.
  - apply length_map.
Qed.

Lemma AddWord_increments_record_witness :
  exists rows' t,
    AddWord "cat"
      (start (sqlite.Table [sqlite.Row "dog" None (sqlite.Int 4) (sqlite.Int 0);
                            sqlite.Row "cat" (Some "mao") (sqlite.Int 2) (sqlite.Int 0)]) [])
    = Return tt (mkWorld (sqlite.Table rows') [] t)
    /\ rows' = [sqlite.Row "dog" None (sqlite.Int 4) (sqlite.Int 0);
                sqlite.Row "cat" (Some "mao") (sqlite.Int 3) (sqlite.Int 0)].
Proof.
  destruct (@AddWord_increments_record "cat"
              [sqlite.Row "dog" None (sqlite.Int 4) (sqlite.Int 0);
               sqlite.Row "cat" (Some "mao") (sqlite.Int 2) (sqlite.Int 0)]
              (sqlite.Row "cat" (Some "mao") (sqlite.Int 2) (sqlite.Int 0)) 2)
    as (rows' & t & Hrun & Hrows & _).
  - right; left; reflexivity.
  - reflexivity.
  - reflexivity.
  - reflexivity.
  - exists rows', t. split; [exact Hrun | rewrite Hrows; reflexivity].
Defined.

(** C6. On a table, [DelWord] ends without an error and leaves the
    records of every other word, in their order; a word without a record
    leaves the table, and so the summary, as it was; and deleting twice
    leaves what deleting once leaves. *)
Theorem DelWord_removes_record (word : string) (rows : list sqlite.row) :
  DelWord word (start (sqlite.Table rows) [])
  = Return tt
      (mkWorld (sqlite.Table (remove word rows)) []
         [Stmt (QDeleteWord word) None; LogPrintf "del word '%s'" [VString word]])
  /\ records word (sqlite.Table (remove word rows)) = []
  /\ (forall w, w <> word ->
        records w (sqlite.Table (remove word rows)) = records w (sqlite.Table rows))
  /\ ((forall r, In r rows -> sqlite.word r <> word) ->
        remove word rows = rows
        /\ forall fs, ShowSummary (start (sqlite.Table (remove word rows)) fs)
                      = ShowSummary (start (sqlite.Table rows) fs))
  /\ DelWord word (start (sqlite.Table (remove word rows)) [])
     = Return tt
         (mkWorld (sqlite.Table (remove word rows)) []
            [Stmt (QDeleteWord word) None; LogPrintf "del word '%s'" [VString word]]).
Proof.
  split; [apply DelWord_run|]. split; [|split; [|split]].
  - cbn [records]. unfold remove. induction rows as [|r rows IH]; [reflexivity|].
    cbn. destruct (sqlite.has_word word r) eqn:E; cbn; [exact IH|].
    now rewrite E.
  - intros w Hw. cbn [records]. unfold remove.
    induction rows as [|r rows IH]; [reflexivity|].
    cbn. destruct (sqlite.has_word word r) eqn:E; cbn.
    + apply has_word_true in E.
      assert (F : sqlite.has_word w r = false) by (apply has_word_false; congruence).
      now rewrite F.
    + destruct (sqlite.has_word w r); [f_equal|]; exact IH.
  - intros H. rewrite (remove_absent _ H). split; reflexivity.
  - unfold start. rewrite DelWord_run, remove_idempotent. reflexivity.
Qed.

(* ================================================================== *)
(** ** The [/word/] handler *)

Module strings_facts.
Import strings.

Lemma prefix_refl (s : string) : String.prefix s s = true.
Proof.
  induction s as [|c s IH]; [reflexivity|].
  simpl. now destruct (ascii_dec c c).
Qed.

Lemma prefix_app (p s : string) : String.prefix p (p ++ s) = true.
Proof.
  induction p as [|c p IH]; [now destruct s|].
  simpl. now destruct (ascii_dec c c).
Qed.

Lemma TrimPrefix_app (p s : string) : TrimPrefix (p ++ s) p = s.
Proof.
  induction p as [|c p IH]; [now destruct s|].
  simpl. now rewrite Ascii.eqb_refl, prefix_app.
Qed.

Lemma Contains_app (a w : string) : Contains (a ++ w) w = true.
Proof.
  induction a as [|c a IH].
  - destruct w; simpl; [reflexivity|].
    destruct (ascii_dec a a); [|congruence]. now rewrite prefix_refl.
  - simpl. rewrite IH. apply orb_true_r.
Qed.

Lemma rev_rev (s : string) : rev (rev s) = s.
Proof.
  unfold rev. rewrite list_ascii_of_string_of_list_ascii, rev_involutive.
  apply string_of_list_ascii_of_string.
Qed.

Lemma rev_inj (s t : string) : rev s = rev t -> s = t.
Proof. intros H. rewrite <- (rev_rev s), <- (rev_rev t). now f_equal. Qed.

(** [TrimSuffix] on a one-byte suffix, by the last byte of the text. *)
Lemma TrimSuffix_byte (s : string) (c : ascii) :
  TrimSuffix s (String c "")
  = match rev s with
    | String x r => if Ascii.eqb x c then rev r else s
    | EmptyString => s
    end.
Proof.
  unfold TrimSuffix. change (rev (String c "")) with (String c "").
  destruct (rev s) as [|x r]; [reflexivity|].
  simpl. destruct (ascii_dec c x) as [->|Hne].
  - rewrite Ascii.eqb_refl. now destruct r.
  - destruct (Ascii.eqb_spec x c); [congruence | reflexivity].
Qed.

(** Only the empty text and the suffix itself are trimmed to nothing. *)
Lemma TrimSuffix_byte_empty (s : string) (c : ascii) :
  TrimSuffix s (String c "") = "" <-> s = "" \/ s = String c "".
Proof.
  rewrite TrimSuffix_byte. destruct (rev s) as [|x r] eqn:E.
  - split; [now left | intros [H|H]; [exact H | subst s; discriminate E]].
  - destruct (Ascii.eqb_spec x c) as [->|Hne].
    + split.
      * intros H. right. apply rev_inj. rewrite E.
        assert (Hr : r = "") by (apply rev_inj; exact H).
        now subst r.
      * intros [H|H]; subst s; [discriminate E|].
        cbn in E. now inversion E.
    + split; [now left|].
      intros [H|H]; subst s; [reflexivity|]. cbn in E. congruence.
Qed.

End strings_facts.

(** The answer of the handler of [/word/] to a path. *)
Definition word_response (path : string) : event :=
  let word := strings.TrimSuffix (strings.TrimPrefix path "/word/") "/" in
  if String.eqb word "" then HttpError "word not found" 404
  else HttpRedirect (dictionary ++ word) 301.

(** C9. The handler of [/word/] answers 404 exactly when what follows the
    prefix [/word/], without one trailing slash, is empty, that is, for
    [/word/] and [/word//]; otherwise it answers with a redirect, 301, to
    the dictionary address followed by the word, which therefore contains
    the word.  [GET /word/] gives 404 and [GET /word/cat] a 301 whose
    target contains [cat]. *)
Theorem wordHandler_response (path : string) (w : World) :
  let word := strings.TrimSuffix (strings.TrimPrefix path "/word/") "/" in
  wordHandler path w
  = Return tt (mkWorld (db w) (faults w) (trace w ++ [word_response path]))
  /\ (word_response path = HttpError "word not found" 404 <-> word = "")
  /\ (word = "" \/
      (word_response path = HttpRedirect (dictionary ++ word) 301
       /\ strings.Contains (dictionary ++ word) word = true))
  /\ (forall rest,
        word_response ("/word/" ++ rest) = HttpError "word not found" 404
        <-> rest = "" \/ rest = "/")
  /\ word_response "/word/" = HttpError "word not found" 404
  /\ word_response "/word/cat" = HttpRedirect (dictionary ++ "cat") 301
  /\ strings.Contains (dictionary ++ "cat") "cat" = true.
Proof.
  intros word.
  assert (R : forall p,
             word_response p = HttpError "word not found" 404
             <-> strings.TrimSuffix (strings.TrimPrefix p "/word/") "/" = "").
  { intros p. unfold word_response.
    destruct (String.eqb_spec (strings.TrimSuffix (strings.TrimPrefix p "/word/") "/") "").
    - tauto.
    - split; [discriminate | contradiction]. }
  split; [|split; [|split; [|split]]].
  - unfold wordHandler, word_response. fold word.
    destruct (String.eqb word ""); reflexivity.
  - apply R.
  - unfold word_response. fold word.
    destruct (String.eqb_spec word ""); [now left|right].
    split; [reflexivity | apply strings_facts.Contains_app].
  - intros rest. rewrite R, strings_facts.TrimPrefix_app.
    apply strings_facts.TrimSuffix_byte_empty.
  - repeat split; reflexivity.
Qed.

(* ================================================================== *)
(** ** How an invocation changes the store *)

(** One statement that adds to the table: [CREATE TABLE], the insertion
    of a record with both counters at 0, or the increment. *)
Inductive grows1 : sqlite.database -> sqlite.database -> Prop :=
| grows_create : grows1 sqlite.NoTable (sqlite.Table [])
| grows_insert rows r :
    existsb (sqlite.has_word (sqlite.word r)) rows = false ->
    sqlite.added_count r = sqlite.Int 0 ->
    sqlite.lookup_count r = sqlite.Int 0 ->
    grows1 (sqlite.Table rows) (sqlite.Table (rows ++ [r]))
| grows_bump rows word :
    grows1 (sqlite.Table rows) (sqlite.Table (map (sqlite.bump word) rows)).

Definition grows : sqlite.database -> sqlite.database -> Prop :=
  clos_refl_trans _ grows1.

(** What one run of the program does to the store: it adds to it, or it
    deletes the records of one word. *)
Inductive effect : sqlite.database -> sqlite.database -> Prop :=
| effect_grows d d' : grows d d' -> effect d d'
| effect_delete rows word :
    effect (sqlite.Table rows) (sqlite.Table (remove word rows)).

Section Effects.
Variable R : sqlite.database -> sqlite.database -> Prop.
Hypothesis R_refl : forall d, R d d.
Hypothesis R_trans : forall d1 d2 d3, R d1 d2 -> R d2 d3 -> R d1 d3.

(** Every run of [p] takes the store to one related to it by [R]. *)
Definition keeps {A} (p : Proc A) : Prop :=
  forall w, R (db w) (db (world_of (p w))).

Lemma keeps_ret {A} (a : A) : keeps (ret a).
Proof. intros w. apply R_refl. Qed.

Lemma keeps_emit (e : event) : keeps (emit e).
Proof. intros w. apply R_refl. Qed.

Lemma keeps_log_Fatal {A} (args : list value) : keeps (@log_Fatal A args).
Proof. intros w. apply R_refl. Qed.

Lemma keeps_bind {A B} (p : Proc A) (k : A -> Proc B) :
  keeps p -> (forall a, keeps (k a)) -> keeps (bind p k).
Proof.
  intros Hp Hk w. unfold bind. specialize (Hp w).
  destruct (p w) as [a w'|c w']; [|exact Hp].
  eapply R_trans; [exact Hp | apply Hk].
Qed.

Lemma keeps_for_each {A} (xs : list A) (f : A -> Proc unit) :
  (forall x, keeps (f x)) -> keeps (for_each xs f).
Proof.
  intros Hf. induction xs as [|x xs IH]; [apply keeps_ret|].
  cbn [for_each]. apply keeps_bind; [apply Hf | intros _; exact IH].
Qed.

Lemma keeps_query {A} (q : query) (run : sqlite.database -> sqlite.error + A) :
  keeps (db_query q run).
Proof. intros w. apply R_refl. Qed.

Lemma keeps_exec (q : query)
      (run : sqlite.database -> sqlite.error + sqlite.database) :
  (forall d d', run d = inr d' -> R d d') -> keeps (db_exec q run).
Proof.
  intros H w. unfold db_exec.
  destruct (faults w) as [|[|] fs]; cbn; try apply R_refl;
    destruct (run (db w)) eqn:E; cbn; auto.
Qed.

Lemma keeps_fatal_if (err : option sqlite.error) : keeps (fatal_if err).
Proof. destruct err; [apply keeps_log_Fatal | apply keeps_ret]. Qed.

Lemma keeps_Listword : keeps worddb.Listword.
Proof.
  apply keeps_bind; [apply keeps_query | intros; apply keeps_ret].
Qed.

Lemma keeps_ShowSummary : keeps ShowSummary.
Proof.
  apply keeps_bind; [apply keeps_Listword|]. intros [words err].
  apply keeps_bind; [apply keeps_emit|]. intros _.
  apply keeps_for_each. intros; apply keeps_emit.
Qed.

Lemma keeps_wordHandler (path : string) : keeps (wordHandler path).
Proof. unfold wordHandler. destruct (String.eqb _ _); apply keeps_emit. Qed.

Lemma keeps_rootHandler (tmpl : Template) : keeps (rootHandler tmpl).
Proof.
  apply keeps_bind; [apply keeps_Listword|]. intros [words err].
  cbn. destruct (tmpl words) as [out [msg|]];
    (apply keeps_bind; [apply keeps_emit|]; intros _);
    [apply keeps_emit | apply keeps_ret].
Qed.

Lemma keeps_RunWebServer (env : Env) (port : Z) : keeps (RunWebServer env port).
Proof.
  unfold RunWebServer. destruct (words_html env) as [err|tmpl];
    [apply keeps_log_Fatal|].
  apply keeps_bind; [apply keeps_emit|]. intros _.
  apply keeps_bind; [|intros _; apply keeps_log_Fatal].
  apply keeps_for_each. intros path. unfold ServeMux.
  destruct (String.prefix _ _); [apply keeps_wordHandler|].
  destruct (String.eqb _ _); [apply keeps_emit | apply keeps_rootHandler].
Qed.

End Effects.

Lemma grows_refl (d : sqlite.database) : grows d d.
Proof. apply rt_refl. Qed.

Lemma grows_trans (d1 d2 d3 : sqlite.database) :
  grows d1 d2 -> grows d2 d3 -> grows d1 d3.
Proof. apply rt_trans. Qed.

Lemma insert_grows (r : sqlite.row) (d d' : sqlite.database) :
  sqlite.added_count r = sqlite.Int 0 ->
  sqlite.lookup_count r = sqlite.Int 0 ->
  sqlite.insert r d = inr d' -> grows d d'.
Proof.
  intros Ha Hl. destruct d as [|rows]; cbn; [discriminate|].
  destruct (existsb _ rows) eqn:E; [discriminate|].
  intros [= <-]. apply rt_step. now constructor.
Qed.

Lemma update_grows (word : string) (d d' : sqlite.database) :
  sqlite.update_added_count word d = inr d' -> grows d d'.
Proof.
  destruct d as [|rows]; cbn; [discriminate|].
  intros [= <-]. apply rt_step. constructor.
Qed.

Lemma create_grows (d d' : sqlite.database) :
  sqlite.create_table d = inr d' -> grows d d'.
Proof.
  destruct d as [|rows]; cbn; [|discriminate].
  intros [= <-]. apply rt_step. constructor.
Qed.

Lemma AddWord_grows (word : string) : keeps grows (AddWord word).
Proof.
  pose proof grows_refl as Hr. pose proof grows_trans as Ht.
  unfold AddWord.
  apply keeps_bind; auto.
  { apply keeps_bind; auto; [apply keeps_query | intros; apply keeps_ret]; auto. }
  intros [count err]. cbn. destruct (count =? 0)%Z.
  - apply keeps_bind; auto.
    + apply keeps_bind; auto; [|intros; apply keeps_ret; auto].
      apply keeps_exec; auto. intros d d'. now apply insert_grows.
    + intros [i e]. cbn. apply keeps_bind; auto;
        [apply keeps_fatal_if | intros; apply keeps_emit]; auto.
  - apply keeps_bind; auto.
    + apply keeps_exec; auto. intros d d'. apply update_grows.
    + intros e. apply keeps_bind; auto;
        [apply keeps_fatal_if | intros; apply keeps_emit]; auto.
Qed.

Lemma Init_grows : keeps grows Init.
Proof.
  pose proof grows_refl as Hr. pose proof grows_trans as Ht.
  unfold Init. apply keeps_bind; auto.
  - apply keeps_exec; auto. intros d d'. apply create_grows.
  - intros [e|]; apply keeps_emit; auto.
Qed.

Lemma DelWord_effect (word : string) (w : World) :
  effect (db w) (db (world_of (DelWord word w))).
Proof.
  run_proc. destruct (faults w) as [|[|] fs]; cbn;
    try (apply effect_grows, grows_refl);
    destruct (db w) as [|rows]; cbn;
    try (apply effect_grows, grows_refl); apply effect_delete.
Qed.

Section MainEffect.
Context {U : strings.UnicodeSlowPaths}.

(** Every run of [main], whatever the flags, the requests and the
    faults of the store, adds to the store or deletes one word. *)
Lemma main_effect (env : Env) (f : Flags.t) (w : World) :
  effect (db w) (db (world_of (main env f w))).
Proof.
  pose proof grows_refl as Hr. pose proof grows_trans as Ht.
  unfold main.
  destruct (Nat.eqb _ 0); [apply effect_grows, Hr|].
  destruct (Flags.showVersion f); [apply effect_grows, Hr|].
  destruct (Flags.daemon f).
  { apply effect_grows. revert w. apply keeps_bind; auto.
    - destruct (_ || _); [apply keeps_log_Fatal | apply keeps_ret]; auto.
    - intros _. apply keeps_RunWebServer; auto. }
  destruct (Flags.init f); [apply effect_grows, Init_grows|].
  destruct (negb (String.eqb (Flags.add f) "")).
  { apply effect_grows. revert w. apply keeps_for_each; auto.
    apply AddWord_grows. }
  destruct (negb (String.eqb (Flags.del f) "")); [apply DelWord_effect|].
  destruct (Flags.show f); [|apply effect_grows, Hr].
  apply effect_grows. revert w. apply keeps_ShowSummary; auto.
Qed.

End MainEffect.

(* ================================================================== *)
(** ** The counters of a record *)

(** The record of a word: the first of its rows (the primary key leaves
    at most one). *)
Definition record (word : string) (d : sqlite.database) : option sqlite.row :=
  hd_error (records word d).

(** The number a counter cell holds; [NULL] reads as 0, as it does in a
    [NullInt64]. *)
Definition value_of (x : sqlite.integer) : Z :=
  match x with
  | sqlite.Null => 0
  | sqlite.Int n => n
  | sqlite.Real2p63 => sqlite.MaxInt64 + 1
  end.

(** An integer cell holds a 64-bit integer. *)
Definition int64_cell (x : sqlite.integer) : Prop :=
  match x with
  | sqlite.Int n => (n <= sqlite.MaxInt64)%Z
  | _ => True
  end.

(** A record and what it has become: same word, same translation, same
    [lookup_count], and an [added_count] that has not gone down. *)
Definition advanced (r r' : sqlite.row) : Prop :=
  sqlite.word r' = sqlite.word r
  /\ sqlite.zh_trans r' = sqlite.zh_trans r
  /\ sqlite.lookup_count r' = sqlite.lookup_count r
  /\ (int64_cell (sqlite.added_count r) ->
      int64_cell (sqlite.added_count r')
      /\ (value_of (sqlite.added_count r) <= value_of (sqlite.added_count r'))%Z).

(** The record of a word before and after the store has grown: it is
    never lost, and a record that appears has [lookup_count = 0]. *)
Definition evolves (o o' : option sqlite.row) : Prop :=
  match o, o' with
  | Some r, Some r' => advanced r r'
  | None, Some r' => sqlite.lookup_count r' = sqlite.Int 0
  | None, None => True
  | Some _, None => False
  end.

Lemma advanced_refl (r : sqlite.row) : advanced r r.
Proof. unfold advanced. repeat split; auto. lia. Qed.

Lemma advanced_trans (r1 r2 r3 : sqlite.row) :
  advanced r1 r2 -> advanced r2 r3 -> advanced r1 r3.
Proof.
  intros (W1 & Z1 & L1 & A1) (W2 & Z2 & L2 & A2).
  split; [congruence|]. split; [congruence|]. split; [congruence|].
  intros H. destruct (A1 H) as [H2 ?]. destruct (A2 H2) as [? ?].
  split; [assumption | lia].
Qed.

Lemma evolves_refl (o : option sqlite.row) : evolves o o.
Proof. destruct o; cbn; [apply advanced_refl | exact I]. Qed.

Lemma evolves_trans (o1 o2 o3 : option sqlite.row) :
  evolves o1 o2 -> evolves o2 o3 -> evolves o1 o3.
Proof.
  destruct o1 as [r1|], o2 as [r2|], o3 as [r3|]; cbn; try tauto.
  - apply advanced_trans.
  - intros H1 (_ & _ & L & _). congruence.
Qed.

Lemma add1_advances (x : sqlite.integer) :
  int64_cell x ->
  int64_cell (sqlite.add1 x) /\ (value_of x <= value_of (sqlite.add1 x))%Z.
Proof.
  destruct x as [|n|]; cbn; try (split; [exact I | lia]).
  intros Hn. destruct (Z.ltb_spec n sqlite.MaxInt64); cbn;
    unfold sqlite.MaxInt64 in *; split; try exact I; lia.
Qed.

Lemma bump_advances (word : string) (r : sqlite.row) : advanced r (sqlite.bump word r).
Proof.
  unfold sqlite.bump. destruct (sqlite.has_word word r); [|apply advanced_refl].
  unfold advanced. cbn. repeat split; now apply add1_advances.
Qed.

Lemma bump_word (word : string) (r : sqlite.row) :
  sqlite.word (sqlite.bump word r) = sqlite.word r.
Proof. unfold sqlite.bump. now destruct (sqlite.has_word word r). Qed.

Lemma filter_map_bump (w word : string) (rows : list sqlite.row) :
  filter (sqlite.has_word w) (map (sqlite.bump word) rows)
  = map (sqlite.bump word) (filter (sqlite.has_word w) rows).
Proof.
  induction rows as [|r rows IH]; [reflexivity|].
  cbn. unfold sqlite.has_word at 1. rewrite bump_word.
  fold (sqlite.has_word w r). destruct (sqlite.has_word w r); cbn; now rewrite IH.
Qed.

Lemma grows1_evolves (w : string) (d d' : sqlite.database) :
  grows1 d d' -> evolves (record w d) (record w d').
Proof.
  intros [|rows r E Ha Hl|rows word]; unfold record; cbn [records].
  - exact I.
  - rewrite filter_app. destruct (filter (sqlite.has_word w) rows) as [|r0 l]; cbn.
    + destruct (sqlite.has_word w r); cbn; [exact Hl | exact I].
    + apply advanced_refl.
  - rewrite filter_map_bump.
    destruct (filter (sqlite.has_word w) rows) as [|r0 l]; cbn; [exact I|].
    apply bump_advances.
Qed.

Lemma grows_evolves (w : string) (d d' : sqlite.database) :
  grows d d' -> evolves (record w d) (record w d').
Proof.
  induction 1 as [d d' H|d|d1 d2 d3 _ IH1 _ IH2].
  - now apply grows1_evolves.
  - apply evolves_refl.
  - eapply evolves_trans; eassumption.
Qed.

Lemma record_remove (w word : string) (rows : list sqlite.row) :
  record w (sqlite.Table (remove word rows))
  = if String.eqb w word then None else record w (sqlite.Table rows).
Proof.
  unfold record. cbn [records]. unfold remove.
  destruct (String.eqb_spec w word) as [->|Hne].
  - induction rows as [|r rows IH]; [reflexivity|].
    cbn. destruct (sqlite.has_word word r) eqn:E; cbn; [exact IH|].
    now rewrite E.
  - induction rows as [|r rows IH]; [reflexivity|].
    cbn. destruct (sqlite.has_word word r) eqn:E; cbn.
    + apply has_word_true in E.
      assert (F : sqlite.has_word w r = false) by (apply has_word_false; congruence).
      now rewrite F.
    + destruct (sqlite.has_word w r); [reflexivity | exact IH].
Qed.

(** Across one run: a record that is there before and after has
    advanced; one that was not there before has [lookup_count = 0]. *)
Lemma effect_record (w : string) (d d' : sqlite.database) (r' : sqlite.row) :
  effect d d' ->
  record w d' = Some r' ->
  match record w d with
  | Some r => advanced r r'
  | None => sqlite.lookup_count r' = sqlite.Int 0
  end.
Proof.
  intros [d0 d0' H|rows word] Hr'.
  - apply (grows_evolves w) in H. rewrite Hr' in H.
    destruct (record w d0); exact H.
  - rewrite record_remove in Hr'. destruct (String.eqb w word); [discriminate|].
    rewrite Hr'. apply advanced_refl.
Qed.

(** One run of the program: what it is started in, its flags, and the
    faults the store suffers during it. *)
Record Invocation : Type := mkInvocation {
  inv_env : Env;
  inv_flags : Flags.t;
  inv_faults : list bool
}.

Section Runs.
Context {U : strings.UnicodeSlowPaths}.

(** The store a run leaves. *)
Definition invoke (i : Invocation) (d : sqlite.database) : sqlite.database :=
  db (world_of (main (inv_env i) (inv_flags i) (start d (inv_faults i)))).

(** The stores between the runs of a sequence, the first and the last
    included. *)
Fixpoint history (ops : list Invocation) (d : sqlite.database)
  : list sqlite.database :=
  match ops with
  | [] => [d]
  | i :: ops' => d :: history ops' (invoke i d)
  end.

Definition final (ops : list Invocation) (d : sqlite.database) : sqlite.database :=
  fold_left (fun d i => invoke i d) ops d.

Lemma invoke_effect (i : Invocation) (d : sqlite.database) :
  effect d (invoke i d).
Proof. apply (main_effect (inv_env i) (inv_flags i) (start d (inv_faults i))). Qed.

(** A record, if there is one, has [lookup_count = 0]. *)
Definition lookup_zero (o : option sqlite.row) : Prop :=
  match o with
  | Some r => sqlite.lookup_count r = sqlite.Int 0
  | None => True
  end.

Lemma invoke_lookup_zero (i : Invocation) (d : sqlite.database) (word : string) :
  lookup_zero (record word d) -> lookup_zero (record word (invoke i d)).
Proof.
  intros H0. destruct (record word (invoke i d)) as [r'|] eqn:E; [|exact I].
  pose proof (effect_record word (invoke_effect i d) E) as H1.
  destruct (record word d) as [r|]; [|exact H1].
  destruct H1 as (_ & _ & L & _). cbn in *. congruence.
Qed.

Lemma final_lookup_zero (ops : list Invocation) (d : sqlite.database) (word : string) :
  lookup_zero (record word d) -> lookup_zero (record word (final ops d)).
Proof.
  revert d. induction ops as [|i ops IH]; intros d H0; [exact H0|].
  cbn. apply IH. now apply invoke_lookup_zero.
Qed.

(** C4. Over any sequence of runs of the program (whatever their flags,
    requests and store faults), a record that is there between all the
    runs keeps its [lookup_count] and its translation, and its
    [added_count] does not go down; and a record of a word that had none
    at the start has [lookup_count = 0], however often the word was
    added, deleted and added again. *)
Theorem counters_never_decrease
        (ops : list Invocation) (d : sqlite.database) (word : string) :
  (forall r r',
      record word d = Some r ->
      Forall (fun d' => record word d' <> None) (history ops d) ->
      record word (final ops d) = Some r' ->
      sqlite.lookup_count r' = sqlite.lookup_count r
      /\ sqlite.zh_trans r' = sqlite.zh_trans r
      /\ (int64_cell (sqlite.added_count r) ->
          (value_of (sqlite.added_count r) <= value_of (sqlite.added_count r'))%Z))
  /\ (forall r',
         record word d = None ->
         record word (final ops d) = Some r' ->
         sqlite.lookup_count r' = sqlite.Int 0).
Proof.
  split.
  - intros r r' Hr Halive Hr'.
    assert (A : advanced r r').
    { revert d r Hr Halive Hr'. induction ops as [|i ops IH]; intros d r Hr Halive Hr'.
      - cbn in Hr'. rewrite Hr in Hr'. injection Hr' as <-. apply advanced_refl.
      - cbn in Hr', Halive. inversion Halive as [|? ? _ Hrest]; subst.
        destruct (record word (invoke i d)) as [r1|] eqn:E1.
        + pose proof (effect_record word (invoke_effect i d) E1) as H1.
          rewrite Hr in H1. eapply advanced_trans; [exact H1|].
          now apply (IH (invoke i d)).
        + exfalso. destruct ops; inversion Hrest; subst; congruence. }
    destruct A as (_ & Hz & Hl & Ha). repeat split; auto.
    intros H. now apply Ha.
  - intros r' Hr Hr'.
    assert (Z : lookup_zero (record word (final ops d))).
    { apply final_lookup_zero. now rewrite Hr. }
    now rewrite Hr' in Z.
Qed.

End Runs.

(* ================================================================== *)
(** ** The delete action *)

(** The flags for which [main] reaches [DelWord]: some flag is set, none
    of [-v], [-D], [-init] and [-a] is, and [-d] has an argument. *)
Definition runs_delete (f : Flags.t) : bool :=
  negb (Nat.eqb (Flags.NFlag f) 0)
  && negb (Flags.showVersion f)
  && negb (Flags.daemon f)
  && negb (Flags.init f)
  && String.eqb (Flags.add f) ""
  && negb (String.eqb (Flags.del f) "").

(** Every key of the table matches [^[a-z]+$]. *)
Definition keys_valid (d : sqlite.database) : Prop :=
  match d with
  | sqlite.NoTable => True
  | sqlite.Table rows => forall r, In r rows -> isValidWord (sqlite.word r) = true
  end.

Lemma DelWord_cases (word : string) (w : World) :
  exists err rest,
    trace (world_of (DelWord word w))
    = trace w ++ Stmt (QDeleteWord word) err :: rest
    /\ (db (world_of (DelWord word w)) = db w
        \/ exists rows, db w = sqlite.Table rows
                        /\ db (world_of (DelWord word w)) = sqlite.Table (remove word rows)).
Proof.
  run_proc. destruct (faults w) as [|[|] fs]; cbn;
    try (rewrite <- app_assoc; cbn; eauto);
    destruct (db w) as [|rows] eqn:E; cbn;
    rewrite <- app_assoc; cbn; do 2 eexists; (split; [reflexivity|]); eauto.
Qed.

Section DeleteAction.
Context {U : strings.UnicodeSlowPaths}.

(** C10. The delete action hands the argument of [-d] to the store as
    it is: the statement is [DeleteWord] of the very argument, neither
    trimmed nor lower-cased nor checked.  So, on a store whose keys all
    match [^[a-z]+$], an argument with a byte outside [a-z] leaves the
    store as it was. *)
Theorem delete_takes_raw_argument
        (env : Env) (f : Flags.t) (d : sqlite.database) (fs : list bool)
        (c : ascii) :
  runs_delete f = true ->
  keys_valid d ->
  In c (list_ascii_of_string (Flags.del f)) ->
  is_lower c = false ->
  main env f (start d fs) = DelWord (Flags.del f) (start d fs)
  /\ (exists err rest,
         trace (world_of (main env f (start d fs)))
         = Stmt (QDeleteWord (Flags.del f)) err :: rest)
  /\ db (world_of (main env f (start d fs))) = d.
Proof.
  intros Hf Hk Hc Hl. unfold runs_delete in Hf.
  repeat (apply andb_true_iff in Hf as [Hf ?]).
  assert (E : main env f (start d fs) = DelWord (Flags.del f) (start d fs)).
  { unfold main.
    destruct (Nat.eqb _ 0); [discriminate|].
    destruct (Flags.showVersion f); [discriminate|].
    destruct (Flags.daemon f); [discriminate|].
    destruct (Flags.init f); [discriminate|].
    destruct (String.eqb (Flags.add f) ""); [|discriminate].
    destruct (String.eqb (Flags.del f) ""); [discriminate|]. reflexivity. }
  rewrite E. split; [reflexivity|].
  destruct (DelWord_cases (Flags.del f) (start d fs)) as (err & rest & Ht & Hd).
  split; [exists err, rest; exact Ht|].
  destruct Hd as [Hd|(rows & Hrows & Hd)]; [exact Hd|].
  cbn in Hrows. subst d. rewrite Hd. f_equal. apply remove_absent.
  intros r Hr Hw. apply Hk in Hr. rewrite Hw in Hr.
  apply isValidWord_spec in Hr as [_ Hr]. apply Hr in Hc. congruence.
Qed.

End DeleteAction.

Lemma delete_takes_raw_argument_witness :
  let env := mkEnv (inl "no template") [] "closed" in
  let f := Flags.mk false "" false "Cat" false 8080 false 1 in
  let d := sqlite.Table [sqlite.Row "cat" None (sqlite.Int 1) (sqlite.Int 0)] in
  db (world_of (main env f (start d []))) = d.
Proof.
  intros env f d.
  refine (proj2 (proj2 (@delete_takes_raw_argument AsciiOnly env f d [] "C" _ _ _ _))).
  - reflexivity.
  - intros r [<-|[]]. reflexivity.
  - left. reflexivity.
  - reflexivity.
Defined.

(* ================================================================== *)
(** ** Counting additions *)

(** The flags for which [main] reaches the loop over [filterWords]. *)
Definition runs_add (f : Flags.t) : bool :=
  negb (Nat.eqb (Flags.NFlag f) 0)
  && negb (Flags.showVersion f)
  && negb (Flags.daemon f)
  && negb (Flags.init f)
  && negb (String.eqb (Flags.add f) "").

(** What [AddWord] makes of the records of one word: the first addition
    creates the record, every later one increments it. *)
Definition added_once (word : string) (l : list sqlite.row) : list sqlite.row :=
  match l with
  | [] => [new_record word]
  | _ :: _ => map (sqlite.bump word) l
  end.

Lemma bump_other_records (word w : string) (rows : list sqlite.row) :
  w <> word ->
  map (sqlite.bump w) (filter (sqlite.has_word word) rows)
  = filter (sqlite.has_word word) rows.
Proof.
  intros Hne. induction rows as [|r rows IH]; [reflexivity|].
  cbn. destruct (sqlite.has_word word r) eqn:E; [|exact IH].
  cbn. rewrite IH. f_equal. apply bump_other.
  apply has_word_true in E. congruence.
Qed.

Lemma records_upsert (word w : string) (rows : list sqlite.row) :
  records word (sqlite.Table (upsert w rows))
  = if String.eqb w word
    then added_once word (records word (sqlite.Table rows))
    else records word (sqlite.Table rows).
Proof.
  cbn [records]. unfold upsert.
  destruct (String.eqb_spec w word) as [->|Hne].
  - destruct (existsb (sqlite.has_word word) rows) eqn:E.
    + rewrite filter_map_bump.
      destruct (filter (sqlite.has_word word) rows) eqn:F; [|reflexivity].
      apply existsb_filter_nil in F. congruence.
    + rewrite filter_app. apply existsb_filter_nil in E. rewrite E. cbn.
      unfold sqlite.has_word. cbn. now rewrite String.eqb_refl.
  - destruct (existsb (sqlite.has_word w) rows).
    + rewrite filter_map_bump. now apply bump_other_records.
    + rewrite filter_app. cbn [filter].
      assert (F : sqlite.has_word word (new_record w) = false)
        by (apply has_word_false; exact Hne).
      rewrite F. apply app_nil_r.
Qed.

(** The loop of the add action on a table, when the store does not fail. *)
Lemma add_loop_run (words : list string) :
  forall rows t,
  exists t',
    for_each words AddWord (mkWorld (sqlite.Table rows) [] t)
    = Return tt
        (mkWorld (sqlite.Table (fold_left (fun rows w => upsert w rows) words rows))
                 [] t').
Proof.
  induction words as [|w words IH]; intros rows t.
  - eexists. reflexivity.
  - cbn [for_each fold_left]. unfold bind at 1. rewrite AddWord_run.
    apply IH.
Qed.

Lemma records_add_loop (word : string) (words : list string) :
  forall rows,
    records word (sqlite.Table (fold_left (fun rows w => upsert w rows) words rows))
    = Nat.iter (count_occ string_dec words word) (added_once word)
               (records word (sqlite.Table rows)).
Proof.
  induction words as [|w words IH]; intros rows; [reflexivity|].
  cbn [fold_left count_occ]. rewrite IH, records_upsert.
  destruct (string_dec w word) as [->|Hne].
  - rewrite String.eqb_refl. symmetry. apply Nat.iter_succ_r.
  - now rewrite (proj2 (String.eqb_neq w word) Hne).
Qed.

(** [n] additions of a word without a record: one record, at [n - 1]. *)
Lemma added_n_times (word : string) (n : nat) :
  (Z.of_nat n <= sqlite.MaxInt64)%Z ->
  Nat.iter (S n) (added_once word) []
  = [sqlite.Row word None (sqlite.Int (Z.of_nat n)) (sqlite.Int 0)].
Proof.
  induction n as [|n IH]; intros Hn; [reflexivity|].
  rewrite Nat.iter_succ, IH by lia.
  cbn [added_once map]. f_equal.
  change word with (sqlite.word (sqlite.Row word None (sqlite.Int (Z.of_nat n)) (sqlite.Int 0))) at 1.
  rewrite bump_same.
  cbn [sqlite.word sqlite.zh_trans sqlite.added_count sqlite.lookup_count].
  rewrite add1_Int by lia.
  do 2 f_equal. lia.
Qed.

Lemma records_remove_other (word w : string) (rows : list sqlite.row) :
  w <> word ->
  records word (sqlite.Table (remove w rows)) = records word (sqlite.Table rows).
Proof.
  intros Hw. cbn [records]. unfold remove.
  induction rows as [|r rows IH]; [reflexivity|].
  cbn. destruct (sqlite.has_word w r) eqn:E; cbn.
  - apply has_word_true in E.
    assert (F : sqlite.has_word word r = false) by (apply has_word_false; congruence).
    now rewrite F.
  - destruct (sqlite.has_word word r); [f_equal|]; exact IH.
Qed.

Lemma for_each_emit {A} (g : A -> event) (xs : list A) :
  forall w,
    for_each xs (fun x => emit (g x)) w
    = Return tt (mkWorld (db w) (faults w) (trace w ++ map g xs)).
Proof.
  induction xs as [|x xs IH]; intros w.
  - cbn. rewrite app_nil_r. now destruct w.
  - cbn [for_each map]. unfold bind, emit at 1. rewrite IH. cbn.
    now rewrite <- app_assoc.
Qed.

Definition summary_header : event :=
  Printf "%15s %10s %12s %-12s\n"
    [VString "Word"; VString "Added Count"; VString "Lookup Count";
     VString "Translation"].

Definition summary_line (word : worddb.Word.t) : event :=
  Printf "%15s %10d %12d %-12s\n" (summary_args word).

(** [ShowSummary] on a table whose rows all scan. *)
Lemma ShowSummary_run (rows : list sqlite.row) (words : list worddb.Word.t)
      (t : list event) :
  worddb.scan_all rows = inr words ->
  ShowSummary (mkWorld (sqlite.Table rows) [] t)
  = Return tt
      (mkWorld (sqlite.Table rows) []
         (t ++ Stmt QListword None :: summary_header :: map summary_line words)).
Proof.
  intros H. unfold ShowSummary, worddb.Listword, db_query, fmt_Printf.
  unfold bind at 1 2. cbn [faults db trace tl sqlite.select_all].
  rewrite H. cbn [ret go_result]. unfold bind, emit at 1.
  change (fun word => emit (Printf "%15s %10d %12d %-12s\n" (summary_args word)))
    with (fun word => emit (summary_line word)).
  rewrite for_each_emit. cbn. now rewrite <- !app_assoc.
Qed.

Lemma scan_all_app (rows : list sqlite.row) (words : list worddb.Word.t)
      (r : sqlite.row) (i : worddb.Word.t) :
  worddb.scan_all rows = inr words ->
  worddb.scan r = Some i ->
  worddb.scan_all (rows ++ [r]) = inr (words ++ [i]).
Proof.
  revert words. induction rows as [|r0 rows IH]; intros words H Hi.
  - cbn in H. injection H as <-. cbn. now rewrite Hi.
  - cbn in *. destruct (worddb.scan r0); [|discriminate].
    destruct (worddb.scan_all rows) as [e|ws]; [discriminate|].
    injection H as <-. now rewrite (IH ws eq_refl Hi).
Qed.

Section Additions.
Context {U : strings.UnicodeSlowPaths}.

(** How often a run adds a word. *)
Definition added (word : string) (i : Invocation) : nat :=
  if runs_add (inv_flags i)
  then count_occ string_dec (filterWords (Flags.add (inv_flags i))) word
  else 0.

(** Whether a run deletes a word. *)
Definition deletes (word : string) (i : Invocation) : bool :=
  runs_delete (inv_flags i) && String.eqb (Flags.del (inv_flags i)) word.

Definition total_added (word : string) (ops : list Invocation) : nat :=
  list_sum (map (added word) ops).

(** The store a run without faults leaves of a table. *)
Lemma invoke_table (i : Invocation) (rows : list sqlite.row) :
  inv_faults i = [] ->
  invoke i (sqlite.Table rows)
  = sqlite.Table
      (if runs_add (inv_flags i)
       then fold_left (fun rows w => upsert w rows)
                      (filterWords (Flags.add (inv_flags i))) rows
       else if runs_delete (inv_flags i)
            then remove (Flags.del (inv_flags i)) rows
            else rows).
Proof.
  intros Hf. unfold invoke. rewrite Hf.
  unfold runs_add, runs_delete, main.
  destruct (Nat.eqb _ 0); [reflexivity|].
  destruct (Flags.showVersion _); [reflexivity|].
  destruct (Flags.daemon _).
  { cbn [negb andb]. symmetry.
    match goal with
    | |- _ = db (world_of (?p ?w)) =>
        change (db w = db (world_of (p w))); generalize w; change (keeps eq p)
    end.
    apply keeps_bind; try (intros; congruence).
    - destruct (_ || _);
        [apply keeps_log_Fatal | apply keeps_ret]; auto.
    - intros _. apply keeps_RunWebServer; intros; congruence. }
  destruct (Flags.init _); [reflexivity|].
  destruct (String.eqb (Flags.add _) ""); cbn [negb andb].
  - destruct (String.eqb (Flags.del _) ""); cbn [negb].
    + destruct (Flags.show _); [|reflexivity].
      symmetry.
      assert (K : keeps eq ShowSummary)
        by (apply keeps_ShowSummary; intros; congruence).
      apply (K (start (sqlite.Table rows) [])).
    + unfold start. now rewrite DelWord_run.
  - cbv zeta. unfold start.
    destruct (add_loop_run (filterWords (Flags.add (inv_flags i))) rows [])
      as (t' & ->).
    reflexivity.
Qed.

Lemma records_invoke (word : string) (i : Invocation) (rows : list sqlite.row) :
  inv_faults i = [] ->
  deletes word i = false ->
  exists rows',
    invoke i (sqlite.Table rows) = sqlite.Table rows'
    /\ records word (sqlite.Table rows')
       = Nat.iter (added word i) (added_once word) (records word (sqlite.Table rows)).
Proof.
  intros Hf Hd. eexists. split; [now apply invoke_table|].
  unfold added, deletes in *.
  destruct (runs_add (inv_flags i)); [apply records_add_loop|].
  destruct (runs_delete (inv_flags i)); [|reflexivity].
  cbn in Hd. apply records_remove_other. now apply String.eqb_neq.
Qed.

Lemma records_final (word : string) (ops : list Invocation) :
  Forall (fun i => inv_faults i = [] /\ deletes word i = false) ops ->
  forall rows,
  exists rows',
    final ops (sqlite.Table rows) = sqlite.Table rows'
    /\ records word (sqlite.Table rows')
       = Nat.iter (total_added word ops) (added_once word)
                  (records word (sqlite.Table rows)).
Proof.
  induction 1 as [|i ops [Hf Hd] _ IH]; intros rows.
  - exists rows. split; reflexivity.
  - destruct (@records_invoke word i rows Hf Hd) as (rows1 & E1 & R1).
    destruct (IH rows1) as (rows' & E' & R').
    exists rows'. split.
    + cbn. now rewrite E1.
    + rewrite R', R1.
      change (total_added word (i :: ops))
        with (added word i + total_added word ops).
      rewrite Nat.add_comm. symmetry. apply Nat.iter_add.
Qed.

End Additions.

Lemma map_bump_absent (word : string) (rows : list sqlite.row) :
  (forall r, In r rows -> sqlite.word r <> word) ->
  map (sqlite.bump word) rows = rows.
Proof.
  intros H. induction rows as [|r rows IH]; [reflexivity|].
  cbn. rewrite bump_other by (apply H; now left).
  f_equal. apply IH. intros; apply H; now right.
Qed.

Lemma scan_all_words (rows : list sqlite.row) :
  forall words,
    worddb.scan_all rows = inr words ->
    map worddb.Word.Word words = map sqlite.word rows.
Proof.
  induction rows as [|r rows IH]; intros words H.
  - cbn in H. now injection H as <-.
  - cbn in H. unfold worddb.scan in H at 1.
    destruct (sql.scan_NullInt64 (sqlite.added_count r)); [|discriminate].
    destruct (sql.scan_NullInt64 (sqlite.lookup_count r)); [|discriminate].
    destruct (worddb.scan_all rows) as [e|ws]; [discriminate|].
    injection H as <-. cbn. f_equal. now apply IH.
Qed.

(** A lower-case letter is ASCII, no space, no upper-case letter and no
    comma. *)
Lemma is_lower_plain (c : ascii) :
  is_lower c = true ->
  strings.RuneSelf c = false /\ strings.asciiSpace c = false
  /\ strings.isUpper c = false /\ Ascii.eqb c "," = false.
Proof.
  destruct c as [[] [] [] [] [] [] [] []]; cbn; intros H;
    try discriminate H; repeat split.
Qed.

Section ValidWords.
Context {U : strings.UnicodeSlowPaths}.

Lemma Split_lower (w : string) :
  all_lower w = true -> strings.Split w "," = [w].
Proof.
  induction w as [|c w IH]; [reflexivity|].
  cbn. intros H. apply andb_true_iff in H as [Hc Hw].
  destruct (is_lower_plain c Hc) as (_ & _ & _ & ->). now rewrite IH.
Qed.

Lemma lowerASCII_lower (w : string) :
  all_lower w = true ->
  strings.isASCII w = true /\ strings.lowerASCII w = w.
Proof.
  induction w as [|c w IH]; [now split|].
  cbn. intros H. apply andb_true_iff in H as [Hc Hw].
  destruct (is_lower_plain c Hc) as (Hr & _ & Hu & _).
  destruct (IH Hw) as [Ha Hl]. unfold strings.lowerByte.
  rewrite Hr, Hu, Ha, Hl. now split.
Qed.

Lemma TrimSpace_lower (w : string) :
  lower_latin w = true -> strings.TrimSpace w = w.
Proof.
  intros H. pose proof (proj1 (lower_latin_spec w) H) as [Hne Hall].
  destruct w as [|c w]; [reflexivity|].
  assert (Hc : is_lower c = true) by (apply Hall; now left).
  destruct (is_lower_plain c Hc) as (Hr & Hs & _ & _).
  cbn [strings.TrimSpace]. rewrite Hr, Hs.
  destruct (strings.rev (String c w)) as [|x r] eqn:E.
  - apply (f_equal strings.rev) in E. rewrite strings_facts.rev_rev in E.
    discriminate E.
  - assert (Hx : is_lower x = true).
    { apply Hall. apply in_rev.
      change (List.rev (list_ascii_of_string (String c w)))
        with (list_ascii_of_string
                (string_of_list_ascii (List.rev (list_ascii_of_string (String c w)))))
        || rewrite <- (list_ascii_of_string_of_list_ascii
                         (List.rev (list_ascii_of_string (String c w)))).
      fold (strings.rev (String c w)). rewrite E. now left. }
    destruct (is_lower_plain x Hx) as (Hrx & Hsx & _ & _).
    cbn [strings.trimRight]. rewrite Hrx, Hsx, <- E.
    apply strings_facts.rev_rev.
Qed.

(** A word that matches [^[a-z]+$] passes the filter as it is. *)
Lemma filterWords_valid_word (w : string) :
  isValidWord w = true -> filterWords w = [w].
Proof.
  intros H. pose proof H as L. unfold isValidWord in L.
  rewrite regexp_facts.MatchString_word in L.
  assert (A : all_lower w = true) by (destruct w; [discriminate L | exact L]).
  unfold filterWords. rewrite filterWords_loop, (Split_lower _ A).
  cbn [map normalize]. unfold normalize.
  rewrite (TrimSpace_lower _ L). unfold strings.ToLower.
  destruct (lowerASCII_lower _ A) as [-> ->].
  cbn. now rewrite H.
Qed.

End ValidWords.

(** The command lines [-a <words>] and [-s]. *)
Definition add_flags (words : string) : Flags.t :=
  Flags.mk false words false "" false 8080 false 1.

Definition show_flags : Flags.t :=
  Flags.mk false "" true "" false 8080 false 1.

Section RoundTrip.
Context {U : strings.UnicodeSlowPaths}.

Lemma invoke_add (env : Env) (a : string) (rows : list sqlite.row) :
  String.eqb a "" = false ->
  invoke (mkInvocation env (add_flags a) []) (sqlite.Table rows)
  = sqlite.Table (fold_left (fun rows w => upsert w rows) (filterWords a) rows).
Proof.
  intros Hne. rewrite invoke_table by reflexivity.
  cbn [inv_flags]. unfold runs_add, add_flags.
  cbn [Flags.NFlag Flags.showVersion Flags.daemon Flags.init Flags.add
       Nat.eqb negb andb].
  now rewrite Hne.
Qed.

(** Adding a word that has no record and showing the summary, twice. *)
Lemma add_then_show (env : Env) (word : string) (rows : list sqlite.row)
      (words : list worddb.Word.t) :
  (forall r, In r rows -> sqlite.word r <> word) ->
  filterWords word = [word] ->
  worddb.scan_all rows = inr words ->
  let add := mkInvocation env (add_flags word) [] in
  let d1 := invoke add (sqlite.Table rows) in
  let d2 := invoke add d1 in
  main env show_flags (start d1 [])
  = Return tt
      (mkWorld d1 []
         (Stmt QListword None :: summary_header :: map summary_line words
            ++ [Printf "%15s %10d %12d %-12s\n"
                  [VString word; VInt 0; VInt 0; VString ""]]))
  /\ main env show_flags (start d2 [])
     = Return tt
         (mkWorld d2 []
            (Stmt QListword None :: summary_header :: map summary_line words
               ++ [Printf "%15s %10d %12d %-12s\n"
                     [VString word; VInt 1; VInt 0; VString ""]]))
  /\ Forall (fun i => worddb.Word.Word i <> word) words.
Proof.
  intros Habs Hfw Hscan add d1 d2.
  assert (Hne : String.eqb word "" = false).
  { apply String.eqb_neq. intros ->.
    assert (V : In "" (filterWords "")) by (rewrite Hfw; now left).
    unfold filterWords in V. rewrite filterWords_loop in V.
    apply filter_In in V as [_ V]. discriminate V. }
  pose proof (proj1 (absent_existsb word rows) Habs) as E.
  assert (E1 : d1 = sqlite.Table (rows ++ [new_record word])).
  { unfold d1, add. rewrite invoke_add by exact Hne.
    rewrite Hfw. cbn [fold_left]. unfold upsert. now rewrite E. }
  assert (E2 : d2 = sqlite.Table
                      (rows ++ [sqlite.Row word None (sqlite.Int 1) (sqlite.Int 0)])).
  { unfold d2, add. rewrite E1, invoke_add by exact Hne.
    rewrite Hfw. cbn [fold_left]. unfold upsert.
    assert (X : existsb (sqlite.has_word word) (rows ++ [new_record word]) = true).
    { rewrite existsb_app. cbn [existsb]. unfold new_record, sqlite.has_word at 2.
      cbn [sqlite.word]. now rewrite String.eqb_refl, !orb_true_r. }
    rewrite X, map_app, map_bump_absent by exact Habs. cbn [map].
    change word with (sqlite.word (new_record word)) at 1.
    now rewrite bump_same. }
  split; [|split].
  - rewrite E1. change (main env show_flags) with ShowSummary.
    unfold start. erewrite ShowSummary_run; cycle 1.
    { apply scan_all_app; [exact Hscan | reflexivity]. }
    cbn. now rewrite map_app.
  - rewrite E2. change (main env show_flags) with ShowSummary.
    unfold start. erewrite ShowSummary_run; cycle 1.
    { apply scan_all_app; [exact Hscan | reflexivity]. }
    cbn. now rewrite map_app.
  - apply Forall_forall. intros i Hi Hw.
    apply (in_map worddb.Word.Word) in Hi.
    rewrite (scan_all_words _ Hscan) in Hi.
    apply in_map_iff in Hi as (r & Hr & Hin). apply (Habs r Hin). congruence.
Qed.

(** C5. From a table without a record for a word, over any sequence of
    runs whose store does not fail and none of which deletes the word,
    and which add the word [n >= 1] times in all, the table ends with
    exactly one record for the word, at [added_count = n - 1] (as long
    as that is a 64-bit integer).  In particular, when the word is a
    valid one, say [x], and the table can be listed, [-a x] followed by
    [-s] prints one line for [x], with 0, and a second [-a x] followed
    by [-s] prints it with 1. *)
Theorem added_count_after_additions
        (ops : list Invocation) (rows : list sqlite.row) (word : string) :
  (forall r, In r rows -> sqlite.word r <> word) ->
  Forall (fun i => inv_faults i = [] /\ deletes word i = false) ops ->
  1 <= total_added word ops ->
  (Z.of_nat (total_added word ops) <= sqlite.MaxInt64 + 1)%Z ->
  (exists rows',
      final ops (sqlite.Table rows) = sqlite.Table rows'
      /\ records word (sqlite.Table rows')
         = [sqlite.Row word None
              (sqlite.Int (Z.of_nat (total_added word ops) - 1)) (sqlite.Int 0)])
  /\ (forall env words,
         isValidWord word = true ->
         worddb.scan_all rows = inr words ->
         let add := mkInvocation env (add_flags word) [] in
         let d1 := invoke add (sqlite.Table rows) in
         let d2 := invoke add d1 in
         main env show_flags (start d1 [])
         = Return tt
             (mkWorld d1 []
                (Stmt QListword None :: summary_header :: map summary_line words
                   ++ [Printf "%15s %10d %12d %-12s\n"
                         [VString word; VInt 0; VInt 0; VString ""]]))
         /\ main env show_flags (start d2 [])
            = Return tt
                (mkWorld d2 []
                   (Stmt QListword None :: summary_header :: map summary_line words
                      ++ [Printf "%15s %10d %12d %-12s\n"
                            [VString word; VInt 1; VInt 0; VString ""]]))
         /\ Forall (fun i => worddb.Word.Word i <> word) words).
Proof.
  intros Habs Hops Hn Hmax. split.
  - destruct (@records_final U word ops Hops rows) as (rows' & E & R).
    exists rows'. split; [exact E|]. rewrite R.
    assert (R0 : records word (sqlite.Table rows) = []).
    { cbn. apply existsb_filter_nil. now apply absent_existsb. }
    rewrite R0. destruct (total_added word ops) as [|n]; [lia|].
    rewrite added_n_times by lia. do 3 f_equal. lia.
  - intros env words Hv Hscan.
    apply add_then_show; auto using filterWords_valid_word.
Qed.

End RoundTrip.

Lemma added_count_after_additions_witness :
  final
    [mkInvocation (mkEnv (inl "no template") [] "closed") (add_flags "x") [];
     mkInvocation (mkEnv (inl "no template") [] "closed") show_flags [];
     mkInvocation (mkEnv (inl "no template") [] "closed") (add_flags "y, X") []]
    (sqlite.Table [])
  = sqlite.Table [sqlite.Row "x" None (sqlite.Int 1) (sqlite.Int 0);
                  sqlite.Row "y" None (sqlite.Int 0) (sqlite.Int 0)]
  /\ exists rows',
      final
        [mkInvocation (mkEnv (inl "no template") [] "closed") (add_flags "x") [];
         mkInvocation (mkEnv (inl "no template") [] "closed") show_flags [];
         mkInvocation (mkEnv (inl "no template") [] "closed") (add_flags "y, X") []]
        (sqlite.Table [])
      = sqlite.Table rows'
      /\ records "x" (sqlite.Table rows')
         = [sqlite.Row "x" None (sqlite.Int 1) (sqlite.Int 0)].
Proof.
  split; [reflexivity|].
  refine (proj1 (@added_count_after_additions AsciiOnly
                   [mkInvocation (mkEnv (inl "no template") [] "closed") (add_flags "x") [];
                    mkInvocation (mkEnv (inl "no template") [] "closed") show_flags [];
                    mkInvocation (mkEnv (inl "no template") [] "closed") (add_flags "y, X") []]
                   [] "x" _ _ _ _)).
  - intros r [].
  - repeat constructor.
  - cbn. lia.
  - cbn. unfold sqlite.MaxInt64. lia.
Defined.

(* ================================================================== *)
(** ** The two renderers *)

(** What [Listword] hands back in a world. *)
Definition listed (w : World) : list worddb.Word.t * option sqlite.error :=
  go_result []
    match faults w with
    | true :: _ => inl sqlite.ErrIO
    | _ => match sqlite.select_all (db w) with
           | inl e => inl e
           | inr rows => worddb.scan_all rows
           end
    end.

Lemma Listword_run (w : World) :
  worddb.Listword w
  = Return (listed w)
      (mkWorld (db w) (tl (faults w)) (trace w ++ [Stmt QListword (snd (listed w))])).
Proof.
  unfold worddb.Listword, listed, bind, db_query, ret.
  destruct (faults w) as [|[|] fs]; cbn [tl]; try reflexivity;
    destruct (sqlite.select_all (db w)) as [e|rows]; try reflexivity;
    destruct (worddb.scan_all rows); reflexivity.
Qed.

(** The columns of a stored row as a renderer is to show them: the word,
    the two counters, and the translation, empty when there is none. *)
Definition fields (r : sqlite.row) : list value :=
  [VString (sqlite.word r);
   VInt (value_of (sqlite.added_count r));
   VInt (value_of (sqlite.lookup_count r));
   VString (match sqlite.zh_trans r with Some s => s | None => "" end)].

Lemma summary_args_fields (r : sqlite.row) (word : worddb.Word.t) :
  worddb.scan r = Some word -> summary_args word = fields r.
Proof.
  unfold worddb.scan, fields.
  destruct r as [w zh a l]. cbn.
  destruct a as [|a|], l as [|l|], zh as [zh|]; cbn; intros [= <-]; reflexivity.
Qed.





Lemma scan_all_Forall2 (rows : list sqlite.row) :
  forall words,
    worddb.scan_all rows = inr words ->
    Forall2 (fun r word => worddb.scan r = Some word) rows words.
Proof.
  induction rows as [|r rows IH]; intros words H.
  - cbn in H. injection H as <-. constructor.
  - cbn in H. destruct (worddb.scan r) as [i|] eqn:E; [|discriminate].
    destruct (worddb.scan_all rows) as [e|ws]; [discriminate|].
    injection H as <-. constructor; [exact E | now apply IH].
Qed.

(** [ShowSummary] in any world: the error of [Listword] is dropped. *)
Lemma ShowSummary_listed (w : World) :
  ShowSummary w
  = Return tt
      (mkWorld (db w) (tl (faults w))
         (trace w ++ Stmt QListword (snd (listed w)) :: summary_header
            :: map summary_line (fst (listed w)))).
Proof.
  unfold ShowSummary. unfold bind at 1. rewrite Listword_run.
  destruct (listed w) as [words err]. cbn [fst snd].
  unfold bind, fmt_Printf, emit at 1.
  change (fun word => emit (Printf "%15s %10d %12d %-12s\n" (summary_args word)))
    with (fun word => emit (summary_line word)).
  rewrite for_each_emit. cbn. now rewrite <- !app_assoc.
Qed.


(* ================================================================== *)
(** ** Store errors *)

(** The statements that write a record. *)
Definition writes_record (q : query) : bool :=
  match q with
  | QInsert _ | QAddWordCount _ | QDeleteWord _ => true
  | _ => false
  end.

Definition failed_write (e : event) : bool :=
  match e with
  | Stmt q (Some _) => writes_record q
  | _ => false
  end.

Definition no_failed_write (evs : list event) : Prop :=
  forallb (fun e => negb (failed_write e)) evs = true.

(** The last events of a run that ends in [log.Fatal]: the fatal message
    alone, or a failed write of a record and its error as the message. *)
Definition fatal_tail (tail : list event) : Prop :=
  (exists args, tail = [LogFatal args])
  \/ (exists q e, tail = [Stmt q (Some e); LogFatal [VError e]]).

(** A process that does not go on after a failed write of a record. *)
Definition stops_at_failed_write {A} (p : Proc A) : Prop :=
  forall w,
  exists evs,
    trace (world_of (p w)) = trace w ++ evs
    /\ match p w with
       | Return _ _ => no_failed_write evs
       | Exit code _ =>
           code = 1%Z
           /\ exists pre tail,
               evs = pre ++ tail /\ no_failed_write pre /\ fatal_tail tail
       end.

Lemma no_failed_write_app (l1 l2 : list event) :
  no_failed_write l1 -> no_failed_write l2 -> no_failed_write (l1 ++ l2).
Proof.
  unfold no_failed_write. intros H1 H2. now rewrite forallb_app, H1, H2.
Qed.

Lemma stops_ret {A} (a : A) : stops_at_failed_write (ret a).
Proof. intros w. exists []. cbn. now rewrite app_nil_r. Qed.

Lemma stops_emit (e : event) :
  failed_write e = false -> stops_at_failed_write (emit e).
Proof.
  intros H w. exists [e]. cbn. split; [reflexivity|].
  unfold no_failed_write. cbn. now rewrite H.
Qed.

Lemma stops_log_Fatal {A} (args : list value) :
  stops_at_failed_write (@log_Fatal A args).
Proof.
  intros w. exists [LogFatal args]. cbn. split; [reflexivity|].
  split; [reflexivity|]. exists [], [LogFatal args].
  split; [reflexivity|]. split; [reflexivity|]. left. now exists args.
Qed.

Lemma stops_bind {A B} (p : Proc A) (k : A -> Proc B) :
  stops_at_failed_write p ->
  (forall a, stops_at_failed_write (k a)) ->
  stops_at_failed_write (bind p k).
Proof.
  intros Hp Hk w. unfold bind. destruct (Hp w) as (evs1 & T1 & V1).
  destruct (p w) as [a w1|c w1]; cbn in T1.
  - destruct (Hk a w1) as (evs2 & T2 & V2).
    exists (evs1 ++ evs2). split; [rewrite T2, T1; symmetry; apply app_assoc|].
    destruct (k a w1) as [b w2|c w2].
    + now apply no_failed_write_app.
    + destruct V2 as (Hc & pre & tail & E & Hpre & Htail).
      split; [exact Hc|]. exists (evs1 ++ pre), tail.
      split; [rewrite E; apply app_assoc|].
      split; [now apply no_failed_write_app | exact Htail].
  - exists evs1. split; [exact T1 | exact V1].
Qed.

Lemma stops_for_each {A} (xs : list A) (f : A -> Proc unit) :
  (forall x, stops_at_failed_write (f x)) ->
  stops_at_failed_write (for_each xs f).
Proof.
  intros Hf. induction xs as [|x xs IH]; [apply stops_ret|].
  cbn [for_each]. apply stops_bind; [apply Hf | intros _; exact IH].
Qed.

Lemma stops_query {A} (q : query) (run : sqlite.database -> sqlite.error + A) :
  writes_record q = false -> stops_at_failed_write (db_query q run).
Proof.
  intros Hq w. unfold db_query. eexists. cbn. split; [reflexivity|].
  unfold no_failed_write. cbn. destruct (match _ with inl e => Some e | inr _ => None end);
    cbn; now rewrite ?Hq.
Qed.

(** A write of a record followed by [if err != nil { log.Fatal(err) }]. *)
Lemma stops_exec_fatal (q : query)
      (run : sqlite.database -> sqlite.error + sqlite.database) :
  stops_at_failed_write (err <- db_exec q run ;; fatal_if err).
Proof.
  intros w. unfold bind, db_exec, fatal_if, log_Fatal, ret.
  destruct (match faults w with true :: _ => inl sqlite.ErrIO | _ => run (db w) end)
    as [e|d]; cbn.
  - exists [Stmt q (Some e); LogFatal [VError e]].
    split; [now rewrite <- app_assoc|]. split; [reflexivity|].
    exists [], [Stmt q (Some e); LogFatal [VError e]].
    split; [reflexivity|]. split; [reflexivity|]. right. now exists q, e.
  - exists [Stmt q None]. split; [reflexivity | reflexivity].
Qed.

Lemma stops_Listword : stops_at_failed_write worddb.Listword.
Proof.
  apply stops_bind; [now apply stops_query | intros; apply stops_ret].
Qed.

Lemma bind_assoc {A B C} (p : Proc A) (k : A -> Proc B) (h : B -> Proc C) :
  forall w, bind (bind p k) h w = bind p (fun a => bind (k a) h) w.
Proof. intros w. unfold bind. now destruct (p w). Qed.

Lemma stops_ext {A} (p q : Proc A) :
  (forall w, p w = q w) -> stops_at_failed_write q -> stops_at_failed_write p.
Proof.
  intros E H w. rewrite E. destruct (H w) as (evs & T & V). now exists evs.
Qed.

Lemma AddWord_stops (word : string) : stops_at_failed_write (AddWord word).
Proof.
  unfold AddWord. apply stops_bind.
  { apply stops_bind; [now apply stops_query | intros; apply stops_ret]. }
  intros [count err]. cbn. destruct (count =? 0)%Z.
  - set (r := worddb.new_row (worddb.CreateWordParams.mk word sql.NullString_zero)).
    apply stops_ext
      with (q := bind (err <- db_exec (QInsert r) (sqlite.insert r) ;; fatal_if err)
                      (fun _ => log_Printf "add word '%s'" [VString word])).
    + intros w. unfold worddb.CreateWord. fold r.
      unfold bind, db_exec, fatal_if, ret.
      destruct (match faults w with true :: _ => inl sqlite.ErrIO | _ => _ end);
        reflexivity.
    + apply stops_bind; [apply stops_exec_fatal | intros; now apply stops_emit].
  - eapply stops_ext.
    + intros w. symmetry. apply bind_assoc.
    + apply stops_bind; [apply stops_exec_fatal | intros; now apply stops_emit].
Qed.

Lemma DelWord_stops (word : string) : stops_at_failed_write (DelWord word).
Proof.
  unfold DelWord. eapply stops_ext.
  - intros w. symmetry. apply bind_assoc.
  - apply stops_bind; [apply stops_exec_fatal | intros; now apply stops_emit].
Qed.

Lemma Init_stops : stops_at_failed_write Init.
Proof.
  intros w. unfold Init, bind, db_exec, log_Printf, emit.
  destruct (match faults w with true :: _ => inl sqlite.ErrIO | _ => _ end) as [e|d];
    cbn; eexists; (split; [now rewrite <- app_assoc | reflexivity]).
Qed.

Lemma ShowSummary_stops : stops_at_failed_write ShowSummary.
Proof.
  apply stops_bind; [apply stops_Listword|]. intros [words err].
  apply stops_bind; [now apply stops_emit|]. intros _.
  apply stops_for_each. intros; now apply stops_emit.
Qed.

Lemma RunWebServer_stops (env : Env) (port : Z) :
  stops_at_failed_write (RunWebServer env port).
Proof.
  unfold RunWebServer. destruct (words_html env) as [err|tmpl];
    [apply stops_log_Fatal|].
  apply stops_bind; [now apply stops_emit|]. intros _.
  apply stops_bind; [|intros _; apply stops_log_Fatal].
  apply stops_for_each. intros path. unfold ServeMux.
  destruct (String.prefix _ _).
  { unfold wordHandler. destruct (String.eqb _ _); now apply stops_emit. }
  destruct (String.eqb _ _); [now apply stops_emit|].
  unfold rootHandler. apply stops_bind; [apply stops_Listword|].
  intros [words err]. cbn. destruct (tmpl words) as [out [msg|]];
    (apply stops_bind; [now apply stops_emit|]; intros _);
    [now apply stops_emit | apply stops_ret].
Qed.

Section StoreErrors.
Context {U : strings.UnicodeSlowPaths}.

Lemma main_stops (env : Env) (f : Flags.t) : stops_at_failed_write (main env f).
Proof.
  unfold main.
  destruct (Nat.eqb _ 0); [now apply stops_emit|].
  destruct (Flags.showVersion f); [now apply stops_emit|].
  destruct (Flags.daemon f).
  { apply stops_bind.
    - destruct (_ || _); [apply stops_log_Fatal | apply stops_ret].
    - intros _. apply RunWebServer_stops. }
  destruct (Flags.init f); [apply Init_stops|].
  destruct (negb (String.eqb (Flags.add f) ""));
    [apply stops_for_each, AddWord_stops|].
  destruct (negb (String.eqb (Flags.del f) "")); [apply DelWord_stops|].
  destruct (Flags.show f); [apply ShowSummary_stops | apply stops_ret].
Qed.

(** The claim as the specification states it: whatever statement fails,
    the run ends in [log.Fatal]. *)
Definition store_errors_are_fatal : Prop :=
  forall env f d fs q e,
    In (Stmt q (Some e)) (trace (world_of (main env f (start d fs)))) ->
    exists w' args,
      main env f (start d fs) = Exit 1 w' /\ In (LogFatal args) (trace w').

End StoreErrors.

Definition init_flags : Flags.t :=
  Flags.mk true "" false "" false 8080 false 1.

Lemma listed_error (w : World) (e : sqlite.error) :
  snd (listed w) = Some e -> fst (listed w) = [].
Proof.
  unfold listed, go_result.
  destruct (match faults w with true :: _ => inl sqlite.ErrIO | _ => _ end);
    [reflexivity | discriminate].
Qed.

Section StoreErrorsAreFatal.
Context {U : strings.UnicodeSlowPaths}.

(** C7, as the code has it.  In every run of the program, a statement
    that writes a record (the insertion and the increment of [AddWord],
    the deletion of [DelWord]) and fails is the last thing the run does
    but for [log.Fatal] of its error, which ends the process with
    status 1: no earlier write has failed, and in an addition of several
    words nothing is done for the words after it.  A listing that fails
    is not fatal: the summary prints its header and no record.  A
    [CREATE TABLE] that fails is logged and the run ends normally. *)
Theorem failed_write_is_fatal
        (env : Env) (f : Flags.t) (d : sqlite.database) (fs : list bool) :
  (forall q e,
      writes_record q = true ->
      In (Stmt q (Some e)) (trace (world_of (main env f (start d fs)))) ->
      exists pre w',
        main env f (start d fs) = Exit 1 w'
        /\ trace w' = pre ++ [Stmt q (Some e); LogFatal [VError e]]
        /\ no_failed_write pre)
  /\ (forall e,
         snd (listed (start d fs)) = Some e ->
         main env show_flags (start d fs)
         = Return tt (mkWorld d (tl fs) [Stmt QListword (Some e); summary_header]))
  /\ (exists d' err,
         main env init_flags (start d fs)
         = Return tt
             (mkWorld d' (tl fs)
                [Stmt QCreateTable err;
                 match err with
                 | Some e => LogPrintf "%q: %s\n" [VError e; VString sqlStmt]
                 | None => LogPrintf "init database" []
                 end])).
Proof.
  split; [|split].
  - intros q e Hq Hin.
    destruct (main_stops env f (start d fs)) as (evs & T & V).
    cbn [start trace app] in T. rewrite T in Hin.
    assert (Clean : forall l, no_failed_write l -> ~ In (Stmt q (Some e)) l).
    { intros l Hl Hi. unfold no_failed_write in Hl.
      rewrite forallb_forall in Hl. apply Hl in Hi. cbn in Hi.
      rewrite Hq in Hi. discriminate. }
    destruct (main env f (start d fs)) as [a w'|c w'] eqn:E.
    + now apply Clean in Hin.
    + destruct V as (-> & pre & tail & -> & Hpre & Htail).
      exists pre, w'. split; [reflexivity|].
      apply in_app_or in Hin as [Hin|Hin]; [now apply Clean in Hin|].
      cbn in T. rewrite T.
      destruct Htail as [(args & ->)|(q' & e' & ->)].
      * destruct Hin as [Hin|[]]. discriminate.
      * destruct Hin as [Hin|[Hin|[]]]; [|discriminate].
        injection Hin as -> ->. split; [reflexivity | exact Hpre].
  - intros e He. change (main env show_flags) with ShowSummary.
    rewrite ShowSummary_listed, He, (listed_error _ He). reflexivity.
  - change (main env init_flags) with Init.
    unfold Init, bind, db_exec, log_Printf, emit, start. cbn [faults db trace].
    destruct (match fs with true :: _ => inl sqlite.ErrIO | _ => _ end) as [e|d'];
      cbn; [exists d, (Some e) | exists d', None]; reflexivity.
Qed.

End StoreErrorsAreFatal.

(** A store that has no table: the listing of the summary fails, nothing
    is logged, and the process ends normally. *)
Lemma show_survives_store_error :
  main (mkEnv (inl "no template") [] "closed") show_flags (start sqlite.NoTable [])
  = Return tt
      (mkWorld sqlite.NoTable []
         [Stmt QListword (Some sqlite.ErrNoSuchTable); summary_header])
  /\ ~ @store_errors_are_fatal AsciiOnly.
Proof.
  split; [reflexivity|].
  intros H.
  destruct (H (mkEnv (inl "no template") [] "closed") show_flags sqlite.NoTable []
              QListword sqlite.ErrNoSuchTable)
    as (w' & args & E & _).
  - left. reflexivity.
  - discriminate E.
Qed.

Lemma failed_write_is_fatal_witness :
  exists pre w',
    main (mkEnv (inl "no template") [] "closed") (add_flags "a,b")
         (start sqlite.NoTable [])
    = Exit 1 w'
    /\ trace w'
       = pre ++ [Stmt (QInsert (new_record "a")) (Some sqlite.ErrNoSuchTable);
                 LogFatal [VError sqlite.ErrNoSuchTable]]
    /\ no_failed_write pre.
Proof.
  refine (proj1 (@failed_write_is_fatal AsciiOnly
                   (mkEnv (inl "no template") [] "closed") (add_flags "a,b")
                   sqlite.NoTable [])
                (QInsert (new_record "a")) sqlite.ErrNoSuchTable _ _).
  - reflexivity.
  - right. left. reflexivity.
Defined.

(** A record followed over three runs: an addition, a summary, and an
    addition of two words. *)
Lemma counters_never_decrease_witness :
  let env := mkEnv (inl "no template") [] "closed" in
  let ops := [mkInvocation env (add_flags "cat") [];
              mkInvocation env show_flags [];
              mkInvocation env (add_flags "cat, dog") [false; true]] in
  let d := sqlite.Table [sqlite.Row "cat" (Some "mao") (sqlite.Int 2) (sqlite.Int 0)] in
  exists r',
    record "cat" (final ops d) = Some r'
    /\ sqlite.lookup_count r' = sqlite.Int 0
    /\ sqlite.zh_trans r' = Some "mao"
    /\ (2 <= value_of (sqlite.added_count r'))%Z.
Proof.
  intros env ops d. eexists. split; [reflexivity|].
  destruct (proj1 (@counters_never_decrease AsciiOnly ops d "cat")
                  (sqlite.Row "cat" (Some "mao") (sqlite.Int 2) (sqlite.Int 0))
                  (sqlite.Row "cat" (Some "mao") (sqlite.Int 3) (sqlite.Int 0)))
    as (Hl & Hz & Ha).
  - reflexivity.
  - repeat constructor; discriminate.
  - reflexivity.
  - split; [exact Hl|]. split; [exact Hz|].
    apply Ha. cbn. unfold sqlite.MaxInt64. lia.
Defined.


(* ================================================================== *)
(** * Further properties *)

(** ** What every run keeps of the table *)

(** The keys of the table are pairwise different. *)
Definition keys_unique (d : sqlite.database) : Prop :=
  match d with
  | sqlite.NoTable => True
  | sqlite.Table rows => NoDup (map sqlite.word rows)
  end.

(** The invariant of the table: keys that match [^[a-z]+$], each once. *)
Definition data_model (d : sqlite.database) : Prop :=
  keys_valid d /\ keys_unique d.

(** A relation on stores made of an invariant: once it holds, it holds. *)
Inductive preserves (I : sqlite.database -> Prop) (d d' : sqlite.database) : Prop :=
| preserves_intro : (I d -> I d') -> preserves I d d'.

Lemma preserves_elim (I : sqlite.database -> Prop) (d d' : sqlite.database) :
  preserves I d d' -> I d -> I d'.
Proof. intros [H]. exact H. Qed.

Lemma preserves_refl (I : sqlite.database -> Prop) (d : sqlite.database) :
  preserves I d d.
Proof. constructor. intros H. exact H. Qed.

Lemma preserves_trans (I : sqlite.database -> Prop) (d1 d2 d3 : sqlite.database) :
  preserves I d1 d2 -> preserves I d2 d3 -> preserves I d1 d3.
Proof. intros [H1] [H2]. constructor. auto. Qed.

Lemma keeps_for_each_Forall {A} (R : sqlite.database -> sqlite.database -> Prop)
      (xs : list A) (f : A -> Proc unit) :
  (forall d, R d d) ->
  (forall d1 d2 d3, R d1 d2 -> R d2 d3 -> R d1 d3) ->
  Forall (fun x => keeps R (f x)) xs -> keeps R (for_each xs f).
Proof.
  intros Hr Ht H. induction H as [|x xs Hx _ IH]; [now apply keeps_ret|].
  cbn [for_each]. apply keeps_bind; auto.
Qed.

Lemma map_word_bump (word : string) (rows : list sqlite.row) :
  map sqlite.word (map (sqlite.bump word) rows) = map sqlite.word rows.
Proof.
  rewrite map_map. apply map_ext. intros r. apply bump_word.
Qed.

Lemma insert_data_model (r : sqlite.row) (d d' : sqlite.database) :
  isValidWord (sqlite.word r) = true ->
  sqlite.insert r d = inr d' -> preserves data_model d d'.
Proof.
  intros Hv. destruct d as [|rows]; cbn; [discriminate|].
  destruct (existsb _ rows) eqn:E; [discriminate|].
  intros [= <-]. constructor. intros [Hk Hu]. split; cbn in *.
  - intros r0 Hin. apply in_app_or in Hin as [Hin|[<-|[]]]; auto.
  - rewrite map_app. cbn. apply NoDup_app; [exact Hu | repeat constructor; intros [] |].
    intros w Hw [<-|[]]. apply in_map_iff in Hw as (r0 & Hr0 & Hin).
    apply (proj2 (absent_existsb (sqlite.word r) rows) E r0 Hin Hr0).
Qed.

Lemma update_data_model (word : string) (d d' : sqlite.database) :
  sqlite.update_added_count word d = inr d' -> preserves data_model d d'.
Proof.
  destruct d as [|rows]; cbn; [discriminate|].
  intros [= <-]. constructor. intros [Hk Hu]. split; cbn in *.
  - intros r Hin. apply in_map_iff in Hin as (r0 & <- & Hin).
    rewrite bump_word. now apply Hk.
  - now rewrite map_word_bump.
Qed.

Lemma delete_data_model (word : string) (d d' : sqlite.database) :
  sqlite.delete word d = inr d' -> preserves data_model d d'.
Proof.
  destruct d as [|rows]; cbn; [discriminate|].
  intros [= <-]. constructor. intros [Hk Hu]. split; cbn in *.
  - intros r Hin. apply filter_In in Hin as [Hin _]. now apply Hk.
  - clear Hk. induction rows as [|r rows IH]; [constructor|].
    cbn in *. inversion Hu as [|? ? Hn Hu']; subst.
    destruct (negb (sqlite.has_word word r)); [|now apply IH].
    cbn. constructor; [|now apply IH].
    intros Hin. apply Hn. apply in_map_iff in Hin as (r0 & E & Hin).
    apply filter_In in Hin as [Hin _]. apply in_map_iff. now exists r0.
Qed.

Lemma create_data_model (d d' : sqlite.database) :
  sqlite.create_table d = inr d' -> preserves data_model d d'.
Proof.
  destruct d as [|rows]; cbn; [|discriminate].
  intros [= <-]. constructor. intros _. split; cbn; [intros r [] | constructor].
Qed.

Ltac by_preserves :=
  lazymatch goal with
  | |- forall d, preserves _ d d => apply preserves_refl
  | |- forall d1 d2 d3, _ -> _ -> preserves _ d1 d3 => apply preserves_trans
  end.

Lemma AddWord_data_model (word : string) :
  isValidWord word = true -> keeps (preserves data_model) (AddWord word).
Proof.
  intros Hv. unfold AddWord.
  apply keeps_bind; try by_preserves.
  { apply keeps_bind; try by_preserves;
      [apply keeps_query | intros; apply keeps_ret]; by_preserves. }
  intros [count err]. cbn. destruct (count =? 0)%Z.
  - apply keeps_bind; try by_preserves.
    + apply keeps_bind; try by_preserves; [|intros; apply keeps_ret; by_preserves].
      apply keeps_exec; try by_preserves. intros d d'.
      now apply insert_data_model.
    + intros [i e]. cbn. apply keeps_bind; try by_preserves;
        [apply keeps_fatal_if | intros; apply keeps_emit]; by_preserves.
  - apply keeps_bind; try by_preserves.
    + apply keeps_exec; try by_preserves. intros d d'. apply update_data_model.
    + intros e. apply keeps_bind; try by_preserves;
        [apply keeps_fatal_if | intros; apply keeps_emit]; by_preserves.
Qed.

Lemma Legacy_AddWord_data_model (word : string) :
  isValidWord word = true -> keeps (preserves data_model) (Legacy.AddWord word).
Proof.
  intros Hv. unfold Legacy.AddWord.
  apply keeps_bind; try by_preserves; [apply keeps_query; by_preserves|].
  intros r. destruct (go_result 0%Z r) as [count err].
  apply keeps_bind; try by_preserves; [apply keeps_fatal_if; by_preserves|].
  intros _. destruct (count =? 0)%Z.
  - apply keeps_bind; try by_preserves.
    + apply keeps_exec; try by_preserves. intros d d'.
      now apply insert_data_model.
    + intros e. apply keeps_bind; try by_preserves;
        [apply keeps_fatal_if | intros; apply keeps_emit]; by_preserves.
  - apply keeps_bind; try by_preserves.
    + apply keeps_exec; try by_preserves. intros d d'. apply update_data_model.
    + intros e. apply keeps_bind; try by_preserves;
        [apply keeps_fatal_if | intros; apply keeps_emit]; by_preserves.
Qed.

Lemma DelWord_data_model (word : string) :
  keeps (preserves data_model) (DelWord word).
Proof.
  unfold DelWord. apply keeps_bind; try by_preserves.
  - apply keeps_exec; try by_preserves. intros d d'. apply delete_data_model.
  - intros e. apply keeps_bind; try by_preserves;
      [apply keeps_fatal_if | intros; apply keeps_emit]; by_preserves.
Qed.

Lemma Init_data_model : keeps (preserves data_model) Init.
Proof.
  unfold Init. apply keeps_bind; try by_preserves.
  - apply keeps_exec; try by_preserves. intros d d'. apply create_data_model.
  - intros [e|]; apply keeps_emit; by_preserves.
Qed.

Lemma Legacy_GetAllWords_keeps (R : sqlite.database -> sqlite.database -> Prop) :
  (forall d, R d d) ->
  (forall d1 d2 d3, R d1 d2 -> R d2 d3 -> R d1 d3) ->
  keeps R Legacy.GetAllWords.
Proof.
  intros Hr Ht. unfold Legacy.GetAllWords.
  apply keeps_bind; [exact Ht | now apply keeps_query |].
  intros [e|rows].
  - apply keeps_bind; [exact Ht | now apply keeps_emit | intros; now apply keeps_ret].
  - generalize (@nil Legacy.Word.t).
    induction rows as [|r rows IH]; intros acc; cbn; [now apply keeps_ret|].
    destruct (Legacy.scan r); [apply IH|].
    apply keeps_bind; [exact Ht | now apply keeps_emit | intros; apply IH].
Qed.

Lemma Legacy_ShowSummary_keeps (R : sqlite.database -> sqlite.database -> Prop) :
  (forall d, R d d) ->
  (forall d1 d2 d3, R d1 d2 -> R d2 d3 -> R d1 d3) ->
  keeps R Legacy.ShowSummary.
Proof.
  intros Hr Ht. unfold Legacy.ShowSummary.
  apply keeps_bind; [exact Ht | now apply Legacy_GetAllWords_keeps |]. intros words.
  apply keeps_bind; [exact Ht | now apply keeps_emit |]. intros _.
  apply keeps_for_each; [exact Hr | exact Ht |]. intros; now apply keeps_emit.
Qed.

Lemma Legacy_RunWebServer_keeps (R : sqlite.database -> sqlite.database -> Prop)
      (env : Env) :
  (forall d, R d d) ->
  (forall d1 d2 d3, R d1 d2 -> R d2 d3 -> R d1 d3) ->
  keeps R (Legacy.RunWebServer env).
Proof.
  intros Hr Ht. unfold Legacy.RunWebServer.
  apply keeps_bind; [exact Ht | | intros; now apply keeps_log_Fatal].
  apply keeps_for_each; [exact Hr | exact Ht |]. intros path. unfold ServeMux.
  destruct (String.prefix _ _); [now apply keeps_wordHandler|].
  destruct (String.eqb _ _); [now apply keeps_emit|].
  unfold Legacy.rootHandler.
  apply keeps_bind; [exact Ht | now apply Legacy_GetAllWords_keeps |]. intros words.
  cbn. apply keeps_bind; [exact Ht | now apply keeps_emit | intros; now apply keeps_ret].
Qed.

Section Invariants.
Context {U : strings.UnicodeSlowPaths}.

Lemma filterWords_valid (s : string) :
  Forall (fun w => isValidWord w = true) (filterWords s).
Proof.
  unfold filterWords. rewrite filterWords_loop. cbn [app].
  apply Forall_forall. intros w Hw. now apply filter_In in Hw.
Qed.

Lemma main_data_model (env : Env) (f : Flags.t) :
  keeps (preserves data_model) (main env f).
Proof.
  unfold main.
  destruct (Nat.eqb _ 0); [apply keeps_emit; by_preserves|].
  destruct (Flags.showVersion f); [apply keeps_emit; by_preserves|].
  destruct (Flags.daemon f).
  { apply keeps_bind; try by_preserves.
    - destruct (_ || _); [apply keeps_log_Fatal | apply keeps_ret]; by_preserves.
    - intros _. apply keeps_RunWebServer; by_preserves. }
  destruct (Flags.init f); [apply Init_data_model|].
  destruct (negb (String.eqb (Flags.add f) "")).
  { apply keeps_for_each_Forall; try by_preserves.
    eapply Forall_impl; [|apply filterWords_valid].
    intros w; apply AddWord_data_model. }
  destruct (negb (String.eqb (Flags.del f) "")); [apply DelWord_data_model|].
  destruct (Flags.show f); [|apply keeps_ret; by_preserves].
  apply keeps_ShowSummary; by_preserves.
Qed.

Lemma Legacy_DelWord_is_DelWord (word : string) : Legacy.DelWord word = DelWord word.
Proof. reflexivity. Qed.

Lemma Legacy_main_data_model (env : Env) (f : Flags.t) :
  keeps (preserves data_model) (Legacy.main env f).
Proof.
  unfold Legacy.main.
  destruct (Nat.eqb _ 0); [apply keeps_emit; by_preserves|].
  destruct (Flags.showVersion f); [apply keeps_emit; by_preserves|].
  destruct (Flags.daemon f); [apply Legacy_RunWebServer_keeps; by_preserves|].
  destruct (Flags.init f); [apply Init_data_model|].
  destruct (negb (String.eqb (Flags.add f) "")).
  { apply keeps_for_each_Forall; try by_preserves.
    eapply Forall_impl; [|apply filterWords_valid].
    intros w; apply Legacy_AddWord_data_model. }
  destruct (negb (String.eqb (Flags.del f) ""));
    [rewrite Legacy_DelWord_is_DelWord; apply DelWord_data_model|].
  destruct (Flags.show f); [|apply keeps_ret; by_preserves].
  apply Legacy_ShowSummary_keeps; by_preserves.
Qed.

(** X1. Every run of [main], whatever its flags, its requests and the
    faults of the store, keeps the invariant of the table: if the keys
    match [^[a-z]+$] and are pairwise different before the run, they are
    after it; so they are after any sequence of runs, and in every store
    made from nothing. *)
Theorem main_keeps_data_model
        (ops : list Invocation) (d : sqlite.database) :
  data_model d ->
  data_model (final ops d)
  /\ data_model (final ops sqlite.NoTable).
Proof.
  assert (K : forall ops d, data_model d -> data_model (final ops d)).
  { clear. induction ops as [|i ops IH]; intros d H; [exact H|].
    cbn. apply IH. unfold invoke.
    now apply (preserves_elim
                 (main_data_model (inv_env i) (inv_flags i) (start d (inv_faults i)))). }
  intros H. split; [now apply K|]. apply K. split; exact I.
Qed.

(** X2. The earlier [main] keeps the same invariant over every run. *)
Theorem Legacy_main_keeps_data_model
        (env : Env) (f : Flags.t) (w : World) :
  data_model (db w) ->
  data_model (db (world_of (Legacy.main env f w))).
Proof. apply (preserves_elim (Legacy_main_data_model env f w)). Qed.

End Invariants.

Lemma main_keeps_data_model_witness :
  data_model
    (final [mkInvocation (mkEnv (inl "no template") [] "closed") (add_flags "Dog, cat,cat") [];
            mkInvocation (mkEnv (inl "no template") [] "closed") (add_flags "7, dog") [false; true]]
           (sqlite.Table [sqlite.Row "cat" None (sqlite.Int 1) (sqlite.Int 0)])).
Proof.
  refine (proj1 (@main_keeps_data_model AsciiOnly _ _ _)).
  split; cbn.
  - intros r [<-|[]]. reflexivity.
  - repeat constructor. intros [].
Defined.

Lemma Legacy_main_keeps_data_model_witness :
  data_model
    (db (world_of
           (Legacy.main (mkEnv (inl "no template") [] "closed") (add_flags "Dog, cat")
                        (start (sqlite.Table [sqlite.Row "cat" (Some "") (sqlite.Int 1) (sqlite.Int 0)]) [])))).
Proof.
  refine (@Legacy_main_keeps_data_model AsciiOnly _ _ _ _).
  split; cbn.
  - intros r [<-|[]]. reflexivity.
  - repeat constructor. intros [].
Defined.

(** ** Columns the program never writes *)

(** A counter that has only been set to 0 and incremented. *)
Definition counted (x : sqlite.integer) : Prop :=
  x = sqlite.Real2p63
  \/ exists n, x = sqlite.Int n /\ (0 <= n <= sqlite.MaxInt64)%Z.

(** A record as [AddWord] makes and leaves it: no translation, no
    look-up, a counter of additions. *)
Definition plain_record (r : sqlite.row) : Prop :=
  sqlite.zh_trans r = None
  /\ sqlite.lookup_count r = sqlite.Int 0
  /\ counted (sqlite.added_count r).

Definition plain_store (d : sqlite.database) : Prop :=
  match d with
  | sqlite.NoTable => True
  | sqlite.Table rows => Forall plain_record rows
  end.

Lemma counted_add1 (x : sqlite.integer) : counted x -> counted (sqlite.add1 x).
Proof.
  intros [->|(n & -> & Hn)]; [now left|].
  cbn. destruct (Z.ltb_spec n sqlite.MaxInt64); [right | now left].
  exists (n + 1)%Z. split; [reflexivity | lia].
Qed.

Lemma bump_plain (word : string) (r : sqlite.row) :
  plain_record r -> plain_record (sqlite.bump word r).
Proof.
  intros (Hz & Hl & Hc). unfold sqlite.bump.
  destruct (sqlite.has_word word r); [|now repeat split].
  repeat split; cbn; auto using counted_add1.
Qed.

Lemma insert_plain (r : sqlite.row) (d d' : sqlite.database) :
  plain_record r -> sqlite.insert r d = inr d' -> preserves plain_store d d'.
Proof.
  intros Hr. destruct d as [|rows]; cbn; [discriminate|].
  destruct (existsb _ rows); [discriminate|].
  intros [= <-]. constructor. cbn. intros H.
  apply Forall_app. split; [exact H | now constructor].
Qed.

Lemma update_plain (word : string) (d d' : sqlite.database) :
  sqlite.update_added_count word d = inr d' -> preserves plain_store d d'.
Proof.
  destruct d as [|rows]; cbn; [discriminate|].
  intros [= <-]. constructor. cbn. intros H.
  apply Forall_map. eapply Forall_impl; [|exact H]. intros r. apply bump_plain.
Qed.

Lemma delete_plain (word : string) (d d' : sqlite.database) :
  sqlite.delete word d = inr d' -> preserves plain_store d d'.
Proof.
  destruct d as [|rows]; cbn; [discriminate|].
  intros [= <-]. constructor. cbn. intros H.
  apply Forall_forall. intros r Hin. apply filter_In in Hin as [Hin _].
  now apply (proj1 (Forall_forall _ _) H).
Qed.

Lemma create_plain (d d' : sqlite.database) :
  sqlite.create_table d = inr d' -> preserves plain_store d d'.
Proof.
  destruct d as [|rows]; cbn; [|discriminate].
  intros [= <-]. constructor. intros _. constructor.
Qed.

Lemma new_record_plain (word : string) : plain_record (new_record word).
Proof.
  repeat split. right. exists 0%Z. split; [reflexivity|].
  unfold sqlite.MaxInt64. lia.
Qed.

Lemma AddWord_plain (word : string) : keeps (preserves plain_store) (AddWord word).
Proof.
  unfold AddWord.
  apply keeps_bind; try by_preserves.
  { apply keeps_bind; try by_preserves;
      [apply keeps_query | intros; apply keeps_ret]; by_preserves. }
  intros [count err]. cbn. destruct (count =? 0)%Z.
  - apply keeps_bind; try by_preserves.
    + apply keeps_bind; try by_preserves; [|intros; apply keeps_ret; by_preserves].
      apply keeps_exec; try by_preserves. intros d d'.
      apply insert_plain, new_record_plain.
    + intros [i e]. cbn. apply keeps_bind; try by_preserves;
        [apply keeps_fatal_if | intros; apply keeps_emit]; by_preserves.
  - apply keeps_bind; try by_preserves.
    + apply keeps_exec; try by_preserves. intros d d'. apply update_plain.
    + intros e. apply keeps_bind; try by_preserves;
        [apply keeps_fatal_if | intros; apply keeps_emit]; by_preserves.
Qed.

Lemma plain_row_line (r : sqlite.row) (word : worddb.Word.t) :
  plain_record r ->
  worddb.scan r = Some word ->
  exists n, (0 <= n)%Z
            /\ summary_args word
               = [VString (sqlite.word r); VInt n; VInt 0; VString ""].
Proof.
  intros (Hz & Hl & Hc) Hs. rewrite (summary_args_fields _ Hs).
  unfold fields. rewrite Hz, Hl.
  destruct Hc as [Hc|(n & Hc & Hn)].
  - unfold worddb.scan in Hs. rewrite Hc in Hs. discriminate Hs.
  - exists n. rewrite Hc. split; [lia | reflexivity].
Qed.

Lemma scan_word (r : sqlite.row) (word : worddb.Word.t) :
  worddb.scan r = Some word -> worddb.Word.Word word = sqlite.word r.
Proof.
  unfold worddb.scan.
  destruct (sql.scan_NullInt64 (sqlite.added_count r)); [|discriminate].
  destruct (sql.scan_NullInt64 (sqlite.lookup_count r)); [|discriminate].
  now intros [= <-].
Qed.

Lemma plain_rows_lines (rows : list sqlite.row) (words : list worddb.Word.t) :
  Forall plain_record rows ->
  Forall2 (fun r word => worddb.scan r = Some word) rows words ->
  Forall (fun word =>
            exists n, (0 <= n)%Z
              /\ summary_args word
                 = [VString (worddb.Word.Word word); VInt n; VInt 0; VString ""])
         words.
Proof.
  intros P E. induction E as [|r word rows' ws' Hr _ IH]; constructor.
  - inversion P as [|? ? Pr _]; subst.
    destruct (plain_row_line Pr Hr) as (n & Hn & ->).
    exists n. now rewrite (scan_word _ Hr).
  - apply IH. now inversion P.
Qed.

Section PlainStore.
Context {U : strings.UnicodeSlowPaths}.

Lemma main_plain (env : Env) (f : Flags.t) :
  keeps (preserves plain_store) (main env f).
Proof.
  unfold main.
  destruct (Nat.eqb _ 0); [apply keeps_emit; by_preserves|].
  destruct (Flags.showVersion f); [apply keeps_emit; by_preserves|].
  destruct (Flags.daemon f).
  { apply keeps_bind; try by_preserves.
    - destruct (_ || _); [apply keeps_log_Fatal | apply keeps_ret]; by_preserves.
    - intros _. apply keeps_RunWebServer; by_preserves. }
  destruct (Flags.init f).
  { unfold Init. apply keeps_bind; try by_preserves.
    - apply keeps_exec; try by_preserves. intros d d'. apply create_plain.
    - intros [e|]; apply keeps_emit; by_preserves. }
  destruct (negb (String.eqb (Flags.add f) "")).
  { apply keeps_for_each; try by_preserves. apply AddWord_plain. }
  destruct (negb (String.eqb (Flags.del f) "")).
  { unfold DelWord. apply keeps_bind; try by_preserves.
    - apply keeps_exec; try by_preserves. intros d d'. apply delete_plain.
    - intros e. apply keeps_bind; try by_preserves;
        [apply keeps_fatal_if | intros; apply keeps_emit]; by_preserves. }
  destruct (Flags.show f); [|apply keeps_ret; by_preserves].
  apply keeps_ShowSummary; by_preserves.
Qed.

(** X3. [main] never writes a translation or a look-up count, and only
    sets [added_count] to 0 and increments it: in every store made from
    nothing by runs of the program (whatever their flags, requests and
    store faults), every record has [zh_trans] NULL, [lookup_count = 0]
    and an [added_count] that is a non-negative integer (or the
    overflowed [2^63]).  So every line the summary prints then shows
    [Lookup Count] 0 and an empty [Translation]. *)
Theorem main_writes_plain_records (ops : list Invocation) (fs : list bool) :
  plain_store (final ops sqlite.NoTable)
  /\ Forall (fun word =>
               exists n, (0 <= n)%Z
                 /\ summary_args word
                    = [VString (worddb.Word.Word word); VInt n; VInt 0; VString ""])
            (fst (listed (start (final ops sqlite.NoTable) fs))).
Proof.
  assert (K : forall ops d, plain_store d -> plain_store (final ops d)).
  { clear. induction ops as [|i ops IH]; intros d H; [exact H|].
    cbn. apply IH. unfold invoke.
    now apply (preserves_elim
                 (main_plain (inv_env i) (inv_flags i) (start d (inv_faults i)))). }
  assert (P : plain_store (final ops sqlite.NoTable)) by (apply K; exact I).
  split; [exact P|].
  unfold listed, start. cbn [faults db].
  assert (L : forall r : sqlite.error + list worddb.Word.t,
             (forall words, r = inr words ->
                exists rows, final ops sqlite.NoTable = sqlite.Table rows
                  /\ worddb.scan_all rows = inr words) ->
             Forall (fun word =>
                       exists n, (0 <= n)%Z
                         /\ summary_args word
                            = [VString (worddb.Word.Word word); VInt n; VInt 0; VString ""])
                    (fst (go_result [] r))).
  { intros [e|words] H; cbn; [constructor|].
    destruct (H words eq_refl) as (rows & Ed & Es). rewrite Ed in P. cbn in P.
    apply (plain_rows_lines P). now apply scan_all_Forall2. }
  apply L. intros words.
  destruct fs as [|[|] fs']; try discriminate;
    (destruct (final ops sqlite.NoTable) as [|rows]; cbn; [discriminate|];
     intros E; exists rows; split; [reflexivity | exact E]).
Qed.

End PlainStore.

(** ** [Init] *)

Section InitAction.
Context {U : strings.UnicodeSlowPaths}.

(** X4. [-init] creates the empty table in a store that has none.  On a
    store that has the table it changes nothing: the statement fails,
    the error is logged with the statement, and every record is kept;
    so a second [-init] never wipes the words.  [Init] never ends the
    process through [log.Fatal]. *)
Theorem Init_keeps_the_table (env : Env) (rows : list sqlite.row) (fs : list bool) :
  (exists e,
      main env init_flags (start (sqlite.Table rows) fs)
      = Return tt
          (mkWorld (sqlite.Table rows) (tl fs)
             [Stmt QCreateTable (Some e);
              LogPrintf "%q: %s\n" [VError e; VString sqlStmt]]))
  /\ main env init_flags (start sqlite.NoTable (false :: fs))
     = Return tt
         (mkWorld (sqlite.Table []) fs
            [Stmt QCreateTable None; LogPrintf "init database" []])
  /\ main env init_flags (start sqlite.NoTable (true :: fs))
     = Return tt
         (mkWorld sqlite.NoTable fs
            [Stmt QCreateTable (Some sqlite.ErrIO);
             LogPrintf "%q: %s\n" [VError sqlite.ErrIO; VString sqlStmt]])
  /\ invoke (mkInvocation env init_flags fs)
            (invoke (mkInvocation env init_flags []) sqlite.NoTable)
     = sqlite.Table []
  /\ forall w, exists w', Init w = Return tt w'.
Proof.
  change (main env init_flags) with Init.
  split; [|split; [reflexivity|split; [reflexivity|split]]].
  - unfold Init, bind, db_exec, log_Printf, emit, start. cbn [faults db trace].
    destruct fs as [|[|] fs']; cbn; eexists; reflexivity.
  - unfold invoke. cbn [inv_env inv_flags inv_faults].
    change (main env init_flags) with Init.
    destruct fs as [|[|] fs']; reflexivity.
  - intros w. unfold Init, bind, db_exec, log_Printf, emit.
    destruct (match faults w with true :: _ => inl sqlite.ErrIO | _ => _ end);
      cbn; eexists; reflexivity.
Qed.

(** X5. The web server is only started on a port in [1, 65535]: with
    [-D] and a port outside this range the process ends with status 1
    and the message of the check, before the template is read, any
    request is served or any statement is sent to the store. *)
Theorem serve_checks_the_port (env : Env) (f : Flags.t) (w : World) :
  Flags.NFlag f <> 0 ->
  Flags.showVersion f = false ->
  Flags.daemon f = true ->
  ((Flags.port f <= 0 \/ 65535 < Flags.port f)%Z ->
   main env f w
   = Exit 1 (mkWorld (db w) (faults w)
               (trace w ++ [LogFatal [VString "port must be between 0~65535"]])))
  /\ ((1 <= Flags.port f <= 65535)%Z ->
      main env f w = RunWebServer env (Flags.port f) w).
Proof.
  intros Hn Hv Hd. unfold main. rewrite Hv, Hd.
  destruct (Nat.eqb_spec (Flags.NFlag f) 0) as [E|_]; [contradiction|].
  split; intros Hp.
  - assert (E : ((Flags.port f <=? 0) || (65535 <? Flags.port f))%Z = true).
    { apply orb_true_iff. destruct Hp; [left; now apply Z.leb_le | right; now apply Z.ltb_lt]. }
    rewrite E. reflexivity.
  - assert (E : ((Flags.port f <=? 0) || (65535 <? Flags.port f))%Z = false).
    { apply orb_false_iff. split; [apply Z.leb_gt | apply Z.ltb_ge]; lia. }
    rewrite E. unfold bind, ret. reflexivity.
Qed.

End InitAction.

Lemma serve_checks_the_port_witness :
  main (mkEnv (inr (fun _ => (Text "", None))) ["/"] "closed")
       (Flags.mk false "" false "" true 70000 false 2)
       (start (sqlite.Table []) [])
  = Exit 1 (mkWorld (sqlite.Table []) []
              [LogFatal [VString "port must be between 0~65535"]])
  /\ main (mkEnv (inr (fun _ => (Text "", None))) ["/"] "closed")
          (Flags.mk false "" false "" true 0 false 1)
          (start (sqlite.Table []) [])
     = Exit 1 (mkWorld (sqlite.Table []) []
                 [LogFatal [VString "port must be between 0~65535"]]).
Proof.
  split.
  - refine (proj1 (@serve_checks_the_port AsciiOnly _
                     (Flags.mk false "" false "" true 70000 false 2) _ _ _ _) _);
      [discriminate | reflexivity | reflexivity | right; reflexivity].
  - refine (proj1 (@serve_checks_the_port AsciiOnly _
                     (Flags.mk false "" false "" true 0 false 1) _ _ _ _) _);
      [discriminate | reflexivity | reflexivity | left; cbn; lia].
Defined.

(** ** The web server only reads *)

(** An event of a run that only lists: no statement but [Listword]. *)
Definition lists_only (e : event) : Prop :=
  match e with
  | Stmt q _ => q = QListword
  | _ => True
  end.

(** A process that returns, leaves the store as it was, and has sent it
    nothing but listings. *)
Definition serves {A} (p : Proc A) : Prop :=
  forall w,
  exists a w' evs,
    p w = Return a w'
    /\ db w' = db w
    /\ trace w' = trace w ++ evs
    /\ Forall lists_only evs.

Lemma serves_ret {A} (a : A) : serves (ret a).
Proof.
  intros w. exists a, w, []. rewrite app_nil_r. repeat split. constructor.
Qed.

Lemma serves_emit (e : event) : lists_only e -> serves (emit e).
Proof.
  intros H w. eexists tt, _, [e]. unfold emit.
  repeat split. now constructor.
Qed.

Lemma serves_bind {A B} (p : Proc A) (k : A -> Proc B) :
  serves p -> (forall a, serves (k a)) -> serves (bind p k).
Proof.
  intros Hp Hk w. destruct (Hp w) as (a & w1 & evs1 & E1 & D1 & T1 & F1).
  destruct (Hk a w1) as (b & w2 & evs2 & E2 & D2 & T2 & F2).
  exists b, w2, (evs1 ++ evs2). unfold bind. rewrite E1, E2.
  repeat split; [congruence | rewrite T2, T1; symmetry; apply app_assoc |].
  apply Forall_app. now split.
Qed.

Lemma serves_for_each {A} (xs : list A) (f : A -> Proc unit) :
  (forall x, serves (f x)) -> serves (for_each xs f).
Proof.
  intros Hf. induction xs as [|x xs IH]; [apply serves_ret|].
  cbn [for_each]. apply serves_bind; [apply Hf | intros _; exact IH].
Qed.

Lemma serves_list_query {A} (run : sqlite.database -> sqlite.error + A) :
  serves (db_query QListword run).
Proof.
  intros w. unfold db_query. do 3 eexists.
  repeat split. constructor; [reflexivity | constructor].
Qed.

Lemma wordHandler_serves (path : string) : serves (wordHandler path).
Proof.
  unfold wordHandler. destruct (String.eqb _ _); now apply serves_emit.
Qed.

Lemma rootHandler_serves (tmpl : Template) : serves (rootHandler tmpl).
Proof.
  apply serves_bind.
  - apply serves_bind; [apply serves_list_query | intros; apply serves_ret].
  - intros [words err]. cbn. destruct (tmpl words) as [out [msg|]];
      (apply serves_bind; [now apply serves_emit|]; intros _);
      [now apply serves_emit | apply serves_ret].
Qed.

Lemma Legacy_GetAllWords_serves : serves Legacy.GetAllWords.
Proof.
  unfold Legacy.GetAllWords. apply serves_bind; [apply serves_list_query|].
  intros [e|rows].
  - apply serves_bind; [now apply serves_emit | intros; apply serves_ret].
  - generalize (@nil Legacy.Word.t).
    induction rows as [|r rows IH]; intros acc; cbn; [apply serves_ret|].
    destruct (Legacy.scan r); [apply IH|].
    apply serves_bind; [now apply serves_emit | intros; apply IH].
Qed.

Lemma Legacy_rootHandler_serves : serves Legacy.rootHandler.
Proof.
  apply serves_bind; [apply Legacy_GetAllWords_serves|]. intros words. cbn.
  apply serves_bind; [now apply serves_emit | intros; apply serves_ret].
Qed.

Lemma ServeMux_serves (root : Proc unit) (word : string -> Proc unit) (path : string) :
  serves root -> (forall p, serves (word p)) -> serves (ServeMux root word path).
Proof.
  intros Hr Hw. unfold ServeMux.
  destruct (String.prefix _ _); [apply Hw|].
  destruct (String.eqb _ _); [now apply serves_emit | exact Hr].
Qed.

(** A server loop followed by [log.Fatal]. *)
Lemma serves_then_fatal (p : Proc unit) (args : list value) (w : World) :
  serves p ->
  exists w' evs,
    (p ;;; @log_Fatal unit args) w = Exit 1 w'
    /\ db w' = db w
    /\ trace w' = trace w ++ evs ++ [LogFatal args]
    /\ Forall lists_only evs.
Proof.
  intros Hp. destruct (Hp w) as (a & w1 & evs & E & D & T & F).
  eexists _, evs. unfold bind, log_Fatal. rewrite E. cbn.
  repeat split; [exact D | rewrite T; symmetry; apply app_assoc | exact F].
Qed.

(** X6. The web server never writes and never returns: whatever the
    requests, [RunWebServer] ends in [log.Fatal] (status 1) with the
    store as it found it, having sent the store nothing but the listing
    of the page; when [words.html] does not parse it ends before it
    serves anything.  The same holds for the server of the earlier
    program. *)
Theorem RunWebServer_only_reads (env : Env) (port : Z) (w : World) :
  (exists w' evs args,
      RunWebServer env port w = Exit 1 w'
      /\ db w' = db w
      /\ trace w' = trace w ++ evs ++ [LogFatal args]
      /\ Forall lists_only evs
      /\ (forall err, words_html env = inl err ->
            evs = [] /\ args = [VString err]))
  /\ (exists w' evs,
         Legacy.RunWebServer env w = Exit 1 w'
         /\ db w' = db w
         /\ trace w' = trace w ++ evs ++ [LogFatal [VString (listen_error env)]]
         /\ Forall lists_only evs).
Proof.
  split.
  - unfold RunWebServer. destruct (words_html env) as [err|tmpl].
    + eexists _, [], [VString err]. unfold log_Fatal. cbn.
      repeat split; try constructor; now injection H as <-.
    + destruct (@serves_then_fatal
                  (log_Printf "Start web server at http://127.0.0.1:%d" [VInt port] ;;;
                   for_each (requests env) (ServeMux (rootHandler tmpl) wordHandler))
                  [VString (listen_error env)] w)
        as (w' & evs & E & D & T & F).
      { apply serves_bind; [now apply serves_emit|]. intros _.
        apply serves_for_each. intros path.
        apply ServeMux_serves; [apply rootHandler_serves | apply wordHandler_serves]. }
      exists w', evs, [VString (listen_error env)].
      split; [|repeat split; auto; discriminate].
      rewrite <- E. unfold bind.
      destruct (log_Printf _ _ w); [|reflexivity].
      destruct (for_each _ _ _); reflexivity.
  - apply serves_then_fatal. apply serves_for_each. intros path.
    apply ServeMux_serves; [apply Legacy_rootHandler_serves | apply wordHandler_serves].
Qed.

(** ** The filter and the comma *)

Lemma Split_nonempty (s : string) (sep : ascii) : strings.Split s sep <> [].
Proof.
  destruct s as [|c s]; cbn; [discriminate|].
  destruct (Ascii.eqb c sep); [discriminate|].
  destruct (strings.Split s sep); discriminate.
Qed.

(** Splitting two texts joined by the separator. *)
Lemma Split_app (a b : string) (sep : ascii) :
  strings.Split (a ++ String sep b) sep
  = strings.Split a sep ++ strings.Split b sep.
Proof.
  induction a as [|c a IH].
  - cbn. now rewrite Ascii.eqb_refl.
  - cbn. rewrite IH. destruct (Ascii.eqb c sep); [reflexivity|].
    destruct (strings.Split a sep) as [|p ps] eqn:E; [|reflexivity].
    now apply Split_nonempty in E.
Qed.

Section FilterAlgebra.
Context {U : strings.UnicodeSlowPaths}.

Lemma filterWords_filter (s : string) :
  filterWords s = filter isValidWord (map normalize (strings.Split s ",")).
Proof. unfold filterWords. now rewrite filterWords_loop. Qed.

(** X7. Filtering two lists of words joined by a comma gives the words
    of the first followed by the words of the second: the pieces are
    judged one by one, and a piece never changes what becomes of
    another. *)
Theorem filterWords_comma (a b : string) :
  filterWords (a ++ "," ++ b) = filterWords a ++ filterWords b.
Proof.
  rewrite !filterWords_filter.
  change (a ++ "," ++ b)%string with (a ++ String "," b)%string.
  now rewrite Split_app, map_app, filter_app.
Qed.

Lemma filterWords_join (words : list string) :
  Forall (fun w => isValidWord w = true) words ->
  filterWords (String.concat "," words) = words.
Proof.
  induction 1 as [|w ws Hw Hws IH]; [reflexivity|].
  destruct ws as [|w' ws].
  - cbn. now apply filterWords_valid_word.
  - change (String.concat "," (w :: w' :: ws))
      with (w ++ "," ++ String.concat "," (w' :: ws))%string.
    rewrite filterWords_comma, IH. now rewrite filterWords_valid_word.
Qed.

(** X8. The filter is idempotent: writing its result back with commas
    and filtering again gives the same words.  What it returns is a list
    it accepts unchanged. *)
Theorem filterWords_idempotent (s : string) :
  filterWords (String.concat "," (filterWords s)) = filterWords s.
Proof. apply filterWords_join, filterWords_valid. Qed.

Lemma AddWord_NoTable (word : string) :
  keeps (fun d d' => d = sqlite.NoTable -> d' = sqlite.NoTable) (AddWord word).
Proof.
  assert (Hr : forall d : sqlite.database, d = sqlite.NoTable -> d = sqlite.NoTable) by auto.
  assert (Ht : forall d1 d2 d3 : sqlite.database,
             (d1 = sqlite.NoTable -> d2 = sqlite.NoTable) ->
             (d2 = sqlite.NoTable -> d3 = sqlite.NoTable) ->
             d1 = sqlite.NoTable -> d3 = sqlite.NoTable) by auto.
  unfold AddWord.
  apply keeps_bind; [exact Ht | |].
  { apply keeps_bind; [exact Ht | now apply keeps_query | intros; now apply keeps_ret]. }
  intros [count err]. cbn. destruct (count =? 0)%Z.
  - apply keeps_bind; [exact Ht | |].
    + apply keeps_bind; [exact Ht | | intros; now apply keeps_ret].
      apply keeps_exec; [exact Hr|]. intros d d' E ->. discriminate E.
    + intros [i e]. cbn. apply keeps_bind;
        [exact Ht | now apply keeps_fatal_if | intros; now apply keeps_emit].
  - apply keeps_bind; [exact Ht | |].
    + apply keeps_exec; [exact Hr|]. intros d d' E ->. discriminate E.
    + intros e. apply keeps_bind;
        [exact Ht | now apply keeps_fatal_if | intros; now apply keeps_emit].
Qed.

(** The store an addition without faults leaves. *)
Lemma invoke_add_any (env : Env) (a : string) (d : sqlite.database) :
  invoke (mkInvocation env (add_flags a) []) d
  = match d with
    | sqlite.NoTable => sqlite.NoTable
    | sqlite.Table rows =>
        sqlite.Table (fold_left (fun rows w => upsert w rows) (filterWords a) rows)
    end.
Proof.
  destruct d as [|rows].
  - unfold invoke. cbn [inv_env inv_flags inv_faults].
    unfold main, add_flags. cbn [Flags.NFlag Flags.showVersion Flags.daemon
                                   Flags.init Flags.add Flags.del Flags.show Nat.eqb].
    destruct (String.eqb a ""); cbn [negb]; [reflexivity|].
    cbv zeta.
    assert (K : keeps (fun d d' => d = sqlite.NoTable -> d' = sqlite.NoTable)
                      (for_each (filterWords a) AddWord)).
    { apply keeps_for_each; auto. apply AddWord_NoTable. }
    now apply (K (start sqlite.NoTable [])).
  - destruct (String.eqb_spec a "") as [->|Hne].
    + reflexivity.
    + apply invoke_add. now apply String.eqb_neq.
Qed.

(** X9. Adding [a,b] in one run leaves the store that adding [a] in one
    run and [b] in the next leaves (when the store does not fail): the
    words are upserted one after the other, in the order given. *)
Theorem add_comma_is_two_adds (env : Env) (a b : string) (d : sqlite.database) :
  final [mkInvocation env (add_flags (a ++ "," ++ b)) []] d
  = final [mkInvocation env (add_flags a) []; mkInvocation env (add_flags b) []] d.
Proof.
  cbn [final fold_left]. rewrite !invoke_add_any.
  destruct d as [|rows]; [reflexivity|].
  now rewrite filterWords_comma, fold_left_app.
Qed.

End FilterAlgebra.

(** ** Adding and deleting *)

(** The command line [-d <word>]. *)
Definition del_flags (word : string) : Flags.t :=
  Flags.mk false "" false word false 8080 false 1.

Lemma remove_gone (word : string) (rows : list sqlite.row) :
  existsb (sqlite.has_word word) (remove word rows) = false.
Proof.
  apply absent_existsb. intros r Hr. apply filter_In in Hr as [_ Hr].
  apply has_word_false. now destruct (sqlite.has_word word r).
Qed.

Section AddDelete.
Context {U : strings.UnicodeSlowPaths}.

Lemma invoke_del (env : Env) (word : string) (rows : list sqlite.row) :
  String.eqb word "" = false ->
  invoke (mkInvocation env (del_flags word) []) (sqlite.Table rows)
  = sqlite.Table (remove word rows).
Proof.
  intros Hne. rewrite invoke_table by reflexivity.
  cbn [inv_flags]. unfold runs_add, runs_delete, del_flags.
  cbn [Flags.NFlag Flags.showVersion Flags.daemon Flags.init Flags.add Flags.del
       Nat.eqb negb andb String.eqb].
  now rewrite Hne.
Qed.

Lemma valid_not_empty (word : string) :
  isValidWord word = true -> String.eqb word "" = false.
Proof.
  intros H. apply String.eqb_neq. intros ->. discriminate H.
Qed.

(** X10. Deleting a word and adding it again starts its record afresh:
    whatever the table held for the word, it then holds one record for
    it, the last of the table, with [added_count = 0]; the records of
    the other words stay, in their order. *)
Theorem delete_then_add_resets (env : Env) (word : string) (rows : list sqlite.row) :
  isValidWord word = true ->
  final [mkInvocation env (del_flags word) []; mkInvocation env (add_flags word) []]
        (sqlite.Table rows)
  = sqlite.Table (remove word rows ++ [new_record word]).
Proof.
  intros Hv. cbn [final fold_left].
  rewrite invoke_del, invoke_add_any by now apply valid_not_empty.
  rewrite (filterWords_valid_word _ Hv). cbn [fold_left].
  unfold upsert. now rewrite remove_gone.
Qed.

(** X11. Adding a word that has no record and deleting it gives the
    table back as it was. *)
Theorem add_then_delete_restores (env : Env) (word : string) (rows : list sqlite.row) :
  isValidWord word = true ->
  (forall r, In r rows -> sqlite.word r <> word) ->
  final [mkInvocation env (add_flags word) []; mkInvocation env (del_flags word) []]
        (sqlite.Table rows)
  = sqlite.Table rows.
Proof.
  intros Hv Habs. cbn [final fold_left].
  rewrite invoke_add_any, (filterWords_valid_word _ Hv). cbn [fold_left].
  rewrite invoke_del by now apply valid_not_empty.
  unfold upsert. rewrite (proj1 (absent_existsb word rows) Habs).
  unfold remove. rewrite filter_app. fold (remove word rows).
  rewrite (remove_absent _ Habs). cbn [filter].
  unfold new_record, sqlite.has_word. cbn [sqlite.word].
  rewrite String.eqb_refl. cbn. now rewrite app_nil_r.
Qed.

End AddDelete.

Lemma delete_then_add_resets_witness :
  final [mkInvocation (mkEnv (inl "no template") [] "closed") (del_flags "cat") [];
         mkInvocation (mkEnv (inl "no template") [] "closed") (add_flags "cat") []]
        (sqlite.Table [sqlite.Row "cat" (Some "mao") (sqlite.Int 7) (sqlite.Int 0);
                       sqlite.Row "dog" None (sqlite.Int 2) (sqlite.Int 0)])
  = sqlite.Table [sqlite.Row "dog" None (sqlite.Int 2) (sqlite.Int 0);
                  sqlite.Row "cat" None (sqlite.Int 0) (sqlite.Int 0)].
Proof.
  exact (@delete_then_add_resets AsciiOnly (mkEnv (inl "no template") [] "closed") "cat"
           [sqlite.Row "cat" (Some "mao") (sqlite.Int 7) (sqlite.Int 0);
            sqlite.Row "dog" None (sqlite.Int 2) (sqlite.Int 0)] eq_refl).
Defined.

Lemma add_then_delete_restores_witness :
  final [mkInvocation (mkEnv (inl "no template") [] "closed") (add_flags "cat") [];
         mkInvocation (mkEnv (inl "no template") [] "closed") (del_flags "cat") []]
        (sqlite.Table [sqlite.Row "dog" None (sqlite.Int 2) (sqlite.Int 0)])
  = sqlite.Table [sqlite.Row "dog" None (sqlite.Int 2) (sqlite.Int 0)].
Proof.
  refine (@add_then_delete_restores AsciiOnly (mkEnv (inl "no template") [] "closed") "cat"
            [sqlite.Row "dog" None (sqlite.Int 2) (sqlite.Int 0)] eq_refl _).
  intros r [<-|[]]. discriminate.
Defined.

(** ** When the count fails *)

(** X12. [AddWord] does not look at the error of the count.  When the
    count fails and the statement after it does not, it takes the word
    for a new one: a word without a record is inserted as usual, but for
    a word that has a record the insertion breaks the primary key, the
    process ends in [log.Fatal] with that error, and the record is not
    incremented. *)
Theorem AddWord_when_count_fails (word : string) (rows : list sqlite.row) :
  AddWord word (start (sqlite.Table rows) [true])
  = if existsb (sqlite.has_word word) rows
    then Exit 1
           (mkWorld (sqlite.Table rows) []
              [Stmt (QCountWord word) (Some sqlite.ErrIO);
               Stmt (QInsert (new_record word)) (Some sqlite.ErrUnique);
               LogFatal [VError sqlite.ErrUnique]])
    else Return tt
           (mkWorld (sqlite.Table (rows ++ [new_record word])) []
              [Stmt (QCountWord word) (Some sqlite.ErrIO);
               Stmt (QInsert (new_record word)) None;
               LogPrintf "add word '%s'" [VString word]]).
Proof.
  run_proc. cbn. unfold worddb.new_row. cbn. fold (new_record word).
  destruct (existsb (sqlite.has_word word) rows); reflexivity.
Qed.

(** The statements that failed, among the events of a run. *)
Definition failed_stmt (e : event) : bool :=
  match e with
  | Stmt _ (Some _) => true
  | _ => false
  end.

(** What a statement gives in a world: the fault, or what it does to the
    store. *)
Definition attempt {A} (run : sqlite.database -> sqlite.error + A) (w : World)
  : sqlite.error + A :=
  match faults w with
  | true :: _ => inl sqlite.ErrIO
  | _ => run (db w)
  end.

(** A write followed by [if err != nil { log.Fatal(err) }] and a line of
    the log. *)
Lemma exec_fatal_log (q : query)
      (run : sqlite.database -> sqlite.error + sqlite.database)
      (format : string) (args : list value) (w : World) :
  (err <- db_exec q run ;; fatal_if err ;;; log_Printf format args) w
  = match attempt run w with
    | inl e =>
        Exit 1 (mkWorld (db w) (tl (faults w))
                  (trace w ++ [Stmt q (Some e); LogFatal [VError e]]))
    | inr d =>
        Return tt (mkWorld d (tl (faults w))
                     (trace w ++ [Stmt q None; LogPrintf format args]))
    end.
Proof.
  unfold bind, db_exec, fatal_if, log_Fatal, log_Printf, emit, ret, attempt.
  destruct (match faults w with true :: _ => inl sqlite.ErrIO | _ => run (db w) end);
    cbn; now rewrite <- app_assoc.
Qed.

(** [AddWord] of the earlier program, statement by statement. *)
Lemma Legacy_AddWord_steps (word : string) (w : World) :
  Legacy.AddWord word w
  = match attempt (sqlite.count_word word) w with
    | inl e =>
        Exit 1 (mkWorld (db w) (tl (faults w))
                  (trace w ++ [Stmt (QCountWord word) (Some e); LogFatal [VError e]]))
    | inr count =>
        let w1 := mkWorld (db w) (tl (faults w))
                          (trace w ++ [Stmt (QCountWord word) None]) in
        let r := sqlite.Row word (Some "") (sqlite.Int 0) (sqlite.Int 0) in
        if (count =? 0)%Z
        then (err <- db_exec (QInsert r) (sqlite.insert r) ;; fatal_if err ;;;
              log_Printf "add word '%s'" [VString word]) w1
        else (err <- db_exec (QAddWordCount word) (sqlite.update_added_count word) ;;
              fatal_if err ;;;
              log_Printf "word '%s' already in database, added_count++" [VString word]) w1
    end.
Proof.
  unfold Legacy.AddWord. unfold bind at 1. unfold db_query, attempt.
  destruct (match faults w with true :: _ => inl sqlite.ErrIO | _ => _ end)
    as [e|count]; cbn [go_result].
  - unfold bind, fatal_if, log_Fatal. cbn. now rewrite <- app_assoc.
  - unfold bind at 1. unfold fatal_if, ret. cbv zeta.
    destruct (count =? 0)%Z; reflexivity.
Qed.

(** X13. In the earlier program every store error of [AddWord] is fatal:
    a run of it that returns has had no statement fail, and a run in
    which a statement fails - the count as well as the insertion or the
    increment - ends right after it in [log.Fatal] with its error
    (status 1), leaving the store as it was. *)
Theorem Legacy_AddWord_errors_are_fatal (word : string) (w : World) :
  exists evs,
    trace (world_of (Legacy.AddWord word w)) = trace w ++ evs
    /\ match Legacy.AddWord word w with
       | Return _ _ => forallb (fun e => negb (failed_stmt e)) evs = true
       | Exit code w' =>
           code = 1%Z
           /\ db w' = db w
           /\ exists pre q e,
               evs = pre ++ [Stmt q (Some e); LogFatal [VError e]]
               /\ forallb (fun e => negb (failed_stmt e)) pre = true
       end.
Proof.
  rewrite Legacy_AddWord_steps.
  destruct (attempt (sqlite.count_word word) w) as [e|count].
  - exists [Stmt (QCountWord word) (Some e); LogFatal [VError e]].
    split; [reflexivity|]. split; [reflexivity|]. split; [reflexivity|].
    exists [], (QCountWord word), e. split; reflexivity.
  - cbv zeta.
    set (w1 := mkWorld (db w) (tl (faults w)) (trace w ++ [Stmt (QCountWord word) None])).
    assert (Step : forall q run format args,
               exists evs,
                 trace (world_of ((err <- db_exec q run ;; fatal_if err ;;;
                                   log_Printf format args) w1))
                 = trace w ++ evs
                 /\ match (err <- db_exec q run ;; fatal_if err ;;;
                           log_Printf format args) w1 with
                    | Return _ _ => forallb (fun e => negb (failed_stmt e)) evs = true
                    | Exit code w' =>
                        code = 1%Z
                        /\ db w' = db w
                        /\ exists pre q e,
                            evs = pre ++ [Stmt q (Some e); LogFatal [VError e]]
                            /\ forallb (fun e => negb (failed_stmt e)) pre = true
                    end).
    { intros q run format args. rewrite exec_fatal_log.
      destruct (attempt run w1) as [e|d].
      - exists [Stmt (QCountWord word) None; Stmt q (Some e); LogFatal [VError e]].
        cbn. rewrite <- app_assoc. split; [reflexivity|].
        split; [reflexivity|]. split; [reflexivity|].
        exists [Stmt (QCountWord word) None], q, e. split; reflexivity.
      - exists [Stmt (QCountWord word) None; Stmt q None; LogPrintf format args].
        cbn. rewrite <- app_assoc. split; reflexivity. }
    destruct (count =? 0)%Z; apply Step.
Qed.

(** ** The listing of the earlier program *)

(** The rows [GetAllWords] can read, as it reads them. *)
Definition Legacy_listed (rows : list sqlite.row) : list Legacy.Word.t :=
  flat_map (fun r => match Legacy.scan r with Some word => [word] | None => [] end) rows.

(** The rows it cannot read. *)
Definition Legacy_unread (rows : list sqlite.row) : list sqlite.row :=
  filter (fun r => match Legacy.scan r with Some _ => false | None => true end) rows.

Definition row_error : event :=
  LogPrintf "get row error: %v" [VError sqlite.ErrScan].

Lemma Legacy_scan_rows_eq (rows : list sqlite.row) :
  forall acc w,
    Legacy.scan_rows rows acc w
    = Return (acc ++ Legacy_listed rows)
        (mkWorld (db w) (faults w)
           (trace w ++ map (fun _ => row_error) (Legacy_unread rows))).
Proof.
  induction rows as [|r rows IH]; intros acc w.
  - cbn. rewrite !app_nil_r. now destruct w.
  - cbn [Legacy.scan_rows Legacy_listed Legacy_unread flat_map filter].
    destruct (Legacy.scan r) as [word|].
    + rewrite IH. cbn. now rewrite <- app_assoc.
    + unfold bind, log_Printf, emit. rewrite IH. cbn. fold row_error.
      now rewrite <- app_assoc.
Qed.


(** X14. [GetAllWords] of the earlier program lists what it can: when the
    query works it returns, in the order of the table, every row that
    scans into a [Word] and logs one error for each row that does not
    (a row with a NULL or a non-integer column), without giving up on
    the rows after it; when the query fails it logs the error and
    returns no word.  It never changes the store and never ends the
    process. *)
Theorem Legacy_GetAllWords_lists_what_scans (w : World) :
  Legacy.GetAllWords w
  = match attempt sqlite.select_all w with
    | inl e =>
        Return []
          (mkWorld (db w) (tl (faults w))
             (trace w ++ [Stmt QListword (Some e);
                          LogPrintf "get all words error: %v" [VError e]]))
    | inr rows =>
        Return (Legacy_listed rows)
          (mkWorld (db w) (tl (faults w))
             (trace w ++ Stmt QListword None
                :: map (fun _ => row_error) (Legacy_unread rows)))
    end.
Proof.
  unfold Legacy.GetAllWords, bind, db_query, attempt.
  destruct (match faults w with true :: _ => inl sqlite.ErrIO | _ => _ end)
    as [e|rows].
  - unfold log_Printf, emit, ret. cbn. now rewrite <- app_assoc.
  - rewrite Legacy_scan_rows_eq. cbn. now rewrite <- app_assoc.
Qed.

(** ** Records of one program read by the other *)


(** ** [GetWord] *)

(** The statement [GetWord] of [query.sql], which [main.go] does not call,
    as a function of the store. *)
Module getword.

(** What [GetWord] can fail with: [sql.ErrNoRows], or an error of the
    store. *)
Inductive error : Type :=
| ErrNoRows
| StoreError (e : sqlite.error).

(** [SELECT * FROM word WHERE word = ? LIMIT 1] *)
Definition select_one (word : string) (d : sqlite.database)
  : sqlite.error + option sqlite.row :=
  match d with
  | sqlite.NoTable => inl sqlite.ErrNoSuchTable
  | sqlite.Table rows => inr (hd_error (filter (sqlite.has_word word) rows))
  end.

(** [-- name: GetWord :one]: the row scanned into a [Word], or the error. *)
Definition GetWord (word : string) (d : sqlite.database) : error + worddb.Word.t :=
  match select_one word d with
  | inl e => inl (StoreError e)
  | inr None => inl ErrNoRows
  | inr (Some r) =>
      match worddb.scan r with
      | Some i => inr i
      | None => inl (StoreError sqlite.ErrScan)
      end
  end.

End getword.

(** X16. [GetWord] and the other statements agree.  It reports
    [sql.ErrNoRows] exactly for the words [CountWord] counts 0 times;
    after [AddWord] of a word without a record it returns that word
    with no translation and both counters at 0; after [DelWord] of a
    word it reports [sql.ErrNoRows] for it. *)
Theorem GetWord_round_trip (word : string) (rows : list sqlite.row) :
  (getword.GetWord word (sqlite.Table rows) = inl getword.ErrNoRows
   <-> sqlite.count_word word (sqlite.Table rows) = inr 0%Z)
  /\ ((forall r, In r rows -> sqlite.word r <> word) ->
      getword.GetWord word (db (world_of (AddWord word (start (sqlite.Table rows) []))))
      = inr (worddb.Word.mk word sql.NullString_zero
               (sql.mkNullInt64 0 true) (sql.mkNullInt64 0 true)))
  /\ getword.GetWord word (db (world_of (DelWord word (start (sqlite.Table rows) []))))
     = inl getword.ErrNoRows.
Proof.
  split; [|split].
  - unfold getword.GetWord. cbn.
    destruct (filter (sqlite.has_word word) rows) as [|r l]; cbn.
    + tauto.
    + split; [|intros H; injection H; lia].
      destruct (worddb.scan r); discriminate.
  - intros Habs. unfold start. rewrite AddWord_run. cbn [world_of db].
    unfold upsert. rewrite (proj1 (absent_existsb word rows) Habs).
    unfold getword.GetWord. cbn [getword.select_one].
    rewrite filter_app.
    rewrite (proj1 (existsb_filter_nil _ _) (proj1 (absent_existsb word rows) Habs)).
    cbn. unfold sqlite.has_word. cbn. now rewrite String.eqb_refl.
  - unfold start. rewrite DelWord_run. cbn [world_of db].
    unfold getword.GetWord. cbn [getword.select_one].
    now rewrite (proj1 (existsb_filter_nil _ _) (remove_gone word rows)).
Qed.

(** ** The trailing slash of [/word/] *)

Lemma rev_snoc (s : string) (c : ascii) :
  strings.rev (s ++ String c "") = String c (strings.rev s).
Proof.
  unfold strings.rev.
  assert (E : list_ascii_of_string (s ++ String c "")
              = (list_ascii_of_string s ++ [c])%list).
  { induction s as [|x s IH]; cbn; [reflexivity | now rewrite IH]. }
  rewrite E, rev_app_distr. reflexivity.
Qed.

Lemma TrimSuffix_snoc (s : string) (c : ascii) :
  strings.TrimSuffix (s ++ String c "") (String c "") = s.
Proof.
  rewrite strings_facts.TrimSuffix_byte, rev_snoc, Ascii.eqb_refl.
  apply strings_facts.rev_rev.
Qed.

Lemma TrimSuffix_none (s : string) (c : ascii) :
  (forall t, s <> t ++ String c "")%string ->
  strings.TrimSuffix s (String c "") = s.
Proof.
  intros H. rewrite strings_facts.TrimSuffix_byte.
  destruct (strings.rev s) as [|x r] eqn:E; [reflexivity|].
  destruct (Ascii.eqb_spec x c) as [->|_]; [|reflexivity].
  exfalso. apply (H (strings.rev r)). apply strings_facts.rev_inj.
  now rewrite rev_snoc, strings_facts.rev_rev.
Qed.

(** X17. The handler of [/word/] drops one trailing slash and no more:
    [/word/w/] is answered like [/word/w] when [w] does not itself end
    in a slash, namely with a redirect to the dictionary address
    followed by [w] (or 404 when [w] is empty), and a second slash stays
    in the address. *)
Theorem wordHandler_trailing_slash (w : string) :
  word_response ("/word/" ++ w ++ "/")
  = (if String.eqb w "" then HttpError "word not found" 404
     else HttpRedirect (dictionary ++ w) 301)
  /\ ((forall t, w <> t ++ "/")%string ->
      word_response ("/word/" ++ w) = word_response ("/word/" ++ w ++ "/"))
  /\ word_response ("/word/" ++ w ++ "//")
     = HttpRedirect (dictionary ++ w ++ "/") 301.
Proof.
  assert (A : forall v, word_response ("/word/" ++ v ++ "/")
                        = if String.eqb v "" then HttpError "word not found" 404
                          else HttpRedirect (dictionary ++ v) 301).
  { intros v. unfold word_response.
    now rewrite strings_facts.TrimPrefix_app, TrimSuffix_snoc. }
  split; [apply A|]. split.
  - intros H. rewrite A. unfold word_response.
    now rewrite strings_facts.TrimPrefix_app, TrimSuffix_none.
  - assert (E : (w ++ "//" = (w ++ "/") ++ "/")%string).
    { induction w as [|c w IH]; cbn; [reflexivity | now rewrite IH]. }
    rewrite E, A.
    destruct (String.eqb_spec (w ++ "/") ""); [|reflexivity].
    destruct w; discriminate.
Qed.

(** ** What an addition reports and leaves *)

(** The events of one [AddWord] on a table, when the store does not fail. *)
Definition AddWord_events (word : string) (rows : list sqlite.row) : list event :=
  Stmt (QCountWord word) None
  :: (if existsb (sqlite.has_word word) rows
      then [Stmt (QAddWordCount word) None;
            LogPrintf "word '%s' already in database, added_count++" [VString word]]
      else [Stmt (QInsert (new_record word)) None;
            LogPrintf "add word '%s'" [VString word]]).

(** The events of the loop of the add action. *)
Fixpoint add_events (words : list string) (rows : list sqlite.row) : list event :=
  match words with
  | [] => []
  | w :: words' => AddWord_events w rows ++ add_events words' (upsert w rows)
  end.

Lemma add_loop_trace (words : list string) :
  forall rows t,
    for_each words AddWord (mkWorld (sqlite.Table rows) [] t)
    = Return tt
        (mkWorld (sqlite.Table (fold_left (fun rows w => upsert w rows) words rows))
                 [] (t ++ add_events words rows)).
Proof.
  induction words as [|w words IH]; intros rows t.
  - cbn. now rewrite app_nil_r.
  - cbn [for_each fold_left add_events]. unfold bind at 1.
    rewrite AddWord_run, IH. unfold AddWord_events. cbn [app].
    now rewrite <- !app_assoc.
Qed.

(** The word a line of the log names. *)
Definition logged_word (e : event) : list string :=
  match e with
  | LogPrintf _ [VString w] => [w]
  | _ => []
  end.

Definition is_stmt (e : event) : bool :=
  match e with
  | Stmt _ _ => true
  | _ => false
  end.

Lemma add_events_report (words : list string) :
  forall rows,
    flat_map logged_word (add_events words rows) = words
    /\ List.length (filter is_stmt (add_events words rows)) = 2 * List.length words
    /\ forallb (fun e => negb (failed_stmt e)) (add_events words rows) = true.
Proof.
  induction words as [|w words IH]; intros rows; [repeat split|].
  cbn [add_events]. destruct (IH (upsert w rows)) as (L & S & F).
  rewrite flat_map_app, filter_app, length_app, forallb_app, L, S, F.
  unfold AddWord_events.
  destruct (existsb (sqlite.has_word w) rows); cbn; repeat split; lia.
Qed.

Section AddReport.
Context {U : strings.UnicodeSlowPaths}.

(** X18. On a working store with its table, the add action never fails
    and reports each word it keeps, and only those: the run returns
    normally, its log names the words of [filterWords], in their order,
    one line each, it has sent the store two statements per word, none
    of which failed, and the pieces the filter drops leave no trace at
    all. *)
Theorem add_reports_each_word (env : Env) (a : string) (rows : list sqlite.row) :
  String.eqb a "" = false ->
  exists rows' evs,
    main env (add_flags a) (start (sqlite.Table rows) [])
    = Return tt (mkWorld (sqlite.Table rows') [] evs)
    /\ flat_map logged_word evs = filterWords a
    /\ List.length (filter is_stmt evs) = 2 * List.length (filterWords a)
    /\ List.length evs = 3 * List.length (filterWords a)
    /\ forallb (fun e => negb (failed_stmt e)) evs = true.
Proof.
  intros Hne. unfold main, add_flags.
  cbn [Flags.NFlag Flags.showVersion Flags.daemon Flags.init Flags.add Nat.eqb].
  rewrite Hne. cbn [negb]. cbv zeta. unfold start.
  rewrite add_loop_trace. cbn [app].
  destruct (add_events_report (filterWords a) rows) as (L & S & F).
  do 2 eexists. split; [reflexivity|]. repeat split; auto.
  clear. generalize (filterWords a) rows. clear.
  induction l as [|w l IH]; intros rows; [reflexivity|].
  cbn [add_events]. rewrite length_app, IH. unfold AddWord_events.
  destruct (existsb _ rows); cbn; lia.
Qed.

End AddReport.

Lemma add_reports_each_word_witness :
  exists rows' evs,
    main (mkEnv (inl "no template") [] "closed") (add_flags "Cat, 42, dog ,cat")
         (start (sqlite.Table []) [])
    = Return tt (mkWorld (sqlite.Table rows') [] evs)
    /\ flat_map logged_word evs = ["cat"; "dog"; "cat"].
Proof.
  destruct (@add_reports_each_word AsciiOnly (mkEnv (inl "no template") [] "closed")
              "Cat, 42, dog ,cat" [] eq_refl)
    as (rows' & evs & E & L & _).
  exists rows', evs. split; [exact E | exact L].
Defined.





Section AddKeys.
Context {U : strings.UnicodeSlowPaths}.


End AddKeys.

(** ** An addition that fails half-way *)

Lemma AddWord_run_ok (word : string) (rows : list sqlite.row)
      (fs : list bool) (t : list event) :
  AddWord word (mkWorld (sqlite.Table rows) (false :: false :: fs) t)
  = Return tt
      (mkWorld (sqlite.Table (upsert word rows)) fs (t ++ AddWord_events word rows)).
Proof.
  run_proc. rewrite count_zero. unfold upsert, AddWord_events.
  destruct (existsb (sqlite.has_word word) rows) eqn:E; cbn.
  - now rewrite <- !app_assoc.
  - unfold worddb.new_row. cbn. fold (new_record word). rewrite E. cbn.
    now rewrite <- !app_assoc.
Qed.

(** The statement with which [AddWord] writes the record of a word. *)
Definition write_of (word : string) (rows : list sqlite.row) : query :=
  if existsb (sqlite.has_word word) rows
  then QAddWordCount word
  else QInsert (new_record word).

Lemma AddWord_write_fault (word : string) (rows : list sqlite.row)
      (fs : list bool) (t : list event) :
  AddWord word (mkWorld (sqlite.Table rows) (false :: true :: fs) t)
  = Exit 1
      (mkWorld (sqlite.Table rows) fs
         (t ++ [Stmt (QCountWord word) None;
                Stmt (write_of word rows) (Some sqlite.ErrIO);
                LogFatal [VError sqlite.ErrIO]])).
Proof.
  run_proc. rewrite count_zero. unfold write_of.
  destruct (existsb (sqlite.has_word word) rows) eqn:E; cbn.
  - now rewrite <- !app_assoc.
  - unfold worddb.new_row. cbn. fold (new_record word).
    now rewrite <- !app_assoc.
Qed.

Lemma add_loop_write_fault (before : list string) (word : string) (after : list string) :
  forall rows fs t,
    for_each (before ++ word :: after) AddWord
      (mkWorld (sqlite.Table rows)
               (repeat false (2 * List.length before) ++ false :: true :: fs) t)
    = Exit 1
        (mkWorld (sqlite.Table (fold_left (fun rows w => upsert w rows) before rows)) fs
           (t ++ add_events before rows
              ++ [Stmt (QCountWord word) None;
                  Stmt (write_of word (fold_left (fun rows w => upsert w rows) before rows))
                       (Some sqlite.ErrIO);
                  LogFatal [VError sqlite.ErrIO]])).
Proof.
  induction before as [|w before IH]; intros rows fs t.
  - change (2 * List.length (@nil string)) with 0.
    cbn [app repeat for_each fold_left add_events].
    unfold bind. now rewrite AddWord_write_fault.
  - replace (2 * List.length (w :: before)) with (S (S (2 * List.length before)))
      by (cbn; lia).
    cbn [app repeat for_each fold_left add_events]. unfold bind at 1.
    rewrite AddWord_run_ok, IH. now rewrite <- !app_assoc.
Qed.

Section PartialAdd.
Context {U : strings.UnicodeSlowPaths}.

(** X20. An addition of several words is not undone when it fails: if
    the write for one word fails, the process ends there with status 1,
    the words before it stay added (their records created or
    incremented), and nothing is sent to the store for the words after
    it. *)
Theorem add_keeps_what_it_did
        (env : Env) (a : string) (rows : list sqlite.row)
        (before : list string) (word : string) (after : list string)
        (fs : list bool) :
  filterWords a = before ++ word :: after ->
  let done := fold_left (fun rows w => upsert w rows) before rows in
  main env (add_flags a)
       (start (sqlite.Table rows)
              (repeat false (2 * List.length before) ++ false :: true :: fs))
  = Exit 1
      (mkWorld (sqlite.Table done) fs
         (add_events before rows
            ++ [Stmt (QCountWord word) None;
                Stmt (write_of word done) (Some sqlite.ErrIO);
                LogFatal [VError sqlite.ErrIO]])).
Proof.
  intros Hf done.
  assert (Hne : String.eqb a "" = false).
  { destruct (String.eqb_spec a "") as [->|]; [|reflexivity].
    destruct before; discriminate Hf. }
  unfold main, add_flags.
  cbn [Flags.NFlag Flags.showVersion Flags.daemon Flags.init Flags.add Nat.eqb].
  rewrite Hne. cbn [negb]. cbv zeta. rewrite Hf. unfold start.
  now rewrite add_loop_write_fault.
Qed.

End PartialAdd.

Lemma add_keeps_what_it_did_witness :
  main (mkEnv (inl "no template") [] "closed") (add_flags "cat,dog,emu")
       (start (sqlite.Table []) [false; false; false; true])
  = Exit 1
      (mkWorld (sqlite.Table [new_record "cat"]) []
         [Stmt (QCountWord "cat") None;
          Stmt (QInsert (new_record "cat")) None;
          LogPrintf "add word '%s'" [VString "cat"];
          Stmt (QCountWord "dog") None;
          Stmt (QInsert (new_record "dog")) (Some sqlite.ErrIO);
          LogFatal [VError sqlite.ErrIO]]).
Proof.
  exact (@add_keeps_what_it_did AsciiOnly (mkEnv (inl "no template") [] "closed")
           "cat,dog,emu" [] ["cat"] "dog" ["emu"] [] eq_refl).
Defined.

(** ** Before [-init] *)

(** The flags for which [main] reaches [Init]. *)
Definition runs_init (f : Flags.t) : bool :=
  negb (Nat.eqb (Flags.NFlag f) 0)
  && negb (Flags.showVersion f)
  && negb (Flags.daemon f)
  && Flags.init f.

Definition stays_without_table (d d' : sqlite.database) : Prop :=
  d = sqlite.NoTable -> d' = sqlite.NoTable.

Lemma AddWord_without_table (word : string) (fs : list bool) (t : list event) :
  exists e1 e2,
    AddWord word (mkWorld sqlite.NoTable fs t)
    = Exit 1
        (mkWorld sqlite.NoTable (tl (tl fs))
           (t ++ [Stmt (QCountWord word) (Some e1);
                  Stmt (QInsert (new_record word)) (Some e2);
                  LogFatal [VError e2]])).
Proof.
  run_proc. unfold worddb.new_row. cbn. fold (new_record word).
  destruct fs as [|[|] [|[|] fs']]; cbn; do 2 eexists;
    rewrite <- !app_assoc; reflexivity.
Qed.

Lemma DelWord_without_table (word : string) (fs : list bool) (t : list event) :
  exists e,
    DelWord word (mkWorld sqlite.NoTable fs t)
    = Exit 1
        (mkWorld sqlite.NoTable (tl fs)
           (t ++ [Stmt (QDeleteWord word) (Some e); LogFatal [VError e]])).
Proof.
  run_proc. destruct fs as [|[|] fs']; cbn; eexists;
    rewrite <- !app_assoc; reflexivity.
Qed.

Section BeforeInit.
Context {U : strings.UnicodeSlowPaths}.

(** X21. Only [-init] creates the table.  On a store without it, every
    other run leaves the store without it: an addition ends in
    [log.Fatal] at the first word the filter keeps (and does nothing
    when the filter keeps none), a deletion ends in [log.Fatal], and
    the summary prints its header alone. *)
Theorem only_init_creates_the_table (env : Env) (f : Flags.t) (fs : list bool) :
  (runs_init f = false ->
   db (world_of (main env f (start sqlite.NoTable fs))) = sqlite.NoTable)
  /\ (forall word words,
        runs_add f = true ->
        filterWords (Flags.add f) = word :: words ->
        exists e1 e2,
          main env f (start sqlite.NoTable fs)
          = Exit 1
              (mkWorld sqlite.NoTable (tl (tl fs))
                 [Stmt (QCountWord word) (Some e1);
                  Stmt (QInsert (new_record word)) (Some e2);
                  LogFatal [VError e2]]))
  /\ (runs_delete f = true ->
      exists e,
        main env f (start sqlite.NoTable fs)
        = Exit 1
            (mkWorld sqlite.NoTable (tl fs)
               [Stmt (QDeleteWord (Flags.del f)) (Some e); LogFatal [VError e]]))
  /\ (exists e,
        main env show_flags (start sqlite.NoTable fs)
        = Return tt
            (mkWorld sqlite.NoTable (tl fs)
               [Stmt QListword (Some e); summary_header])).
Proof.
  split; [|split; [|split]].
  - unfold runs_init, main.
    destruct (Nat.eqb _ 0); [reflexivity|].
    destruct (Flags.showVersion f); [reflexivity|].
    destruct (Flags.daemon f).
    { intros _. symmetry.
      match goal with
      | |- _ = db (world_of (?p ?w)) =>
          change (db w = db (world_of (p w))); generalize w; change (keeps eq p)
      end.
      apply keeps_bind; try (intros; congruence).
      - destruct (_ || _); [apply keeps_log_Fatal | apply keeps_ret]; auto.
      - intros _. apply keeps_RunWebServer; intros; congruence. }
    destruct (Flags.init f); [discriminate|]. intros _.
    destruct (negb (String.eqb (Flags.add f) "")).
    { assert (K : keeps stays_without_table (for_each (filterWords (Flags.add f)) AddWord)).
      { apply keeps_for_each; unfold stays_without_table; auto.
        apply AddWord_NoTable. }
      now apply (K (start sqlite.NoTable fs)). }
    destruct (negb (String.eqb (Flags.del f) "")).
    { unfold start.
      destruct (DelWord_without_table (Flags.del f) fs []) as (e & ->). reflexivity. }
    destruct (Flags.show f); [|reflexivity].
    symmetry.
    assert (K : keeps eq ShowSummary)
      by (apply keeps_ShowSummary; intros; congruence).
    apply (K (start sqlite.NoTable fs)).
  - intros word words Hf Hw. unfold runs_add in Hf.
    repeat (apply andb_true_iff in Hf as [Hf ?]).
    unfold main.
    destruct (Nat.eqb _ 0); [discriminate|].
    destruct (Flags.showVersion f); [discriminate|].
    destruct (Flags.daemon f); [discriminate|].
    destruct (Flags.init f); [discriminate|].
    destruct (negb (String.eqb (Flags.add f) "")); [|discriminate].
    cbv zeta. rewrite Hw. cbn [for_each]. unfold bind, start.
    destruct (AddWord_without_table word fs []) as (e1 & e2 & ->).
    now exists e1, e2.
  - intros Hf. unfold runs_delete in Hf.
    repeat (apply andb_true_iff in Hf as [Hf ?]).
    unfold main.
    destruct (Nat.eqb _ 0); [discriminate|].
    destruct (Flags.showVersion f); [discriminate|].
    destruct (Flags.daemon f); [discriminate|].
    destruct (Flags.init f); [discriminate|].
    destruct (String.eqb (Flags.add f) ""); [|discriminate].
    destruct (String.eqb (Flags.del f) ""); [discriminate|].
    cbn [negb]. unfold start. apply (DelWord_without_table (Flags.del f) fs []).
  - change (main env show_flags) with ShowSummary.
    rewrite ShowSummary_listed. unfold listed, start. cbn [faults db trace].
    destruct fs as [|[|] fs']; cbn; eexists; reflexivity.
Qed.

End BeforeInit.
